(** * ssc32u_controllers: the servo controller's angle / pulse-width translation

    A shallow embedding of [ssc32u_controllers/src/servo_controller.cpp]:
    the pulse-width helpers, the trajectory command callback, the relax
    service and the joint-state response handler, with the properties of
    the specification stated and proved over them.

    Doubles are IEEE 754 binary64 values (Rocq's primitive floats), C++
    integers are [Z] with every narrowing written out, the joint registry
    [joints_map_] is a finite map from joint names to joints. *)

From Stdlib Require Import ZArith Lia List PrimFloat FloatOps SpecFloat Uint63.
From Stdlib Require Import Ascii String FloatAxioms.
From Stdlib Require Import QArith Qround Qabs Qfield Lqa Qpower.
From stdpp Require Import gmap strings list.

Local Open Scope Z_scope.

(** ** Machine integers *)

Module Machine.

(** The integer types a message field can have. The message headers
    ([ssc32u_msgs]) are not part of the translation unit, so the type of
    [ServoCommand::pw] is a parameter of the model; it ranges over the
    integer types that can hold a pulse width. *)
Inductive int_type : Type :=
| Int16 | UInt16 | Int32 | UInt32 | Int64 | UInt64.

Definition bits (ty : int_type) : Z :=
  match ty with
  | Int16 | UInt16 => 16
  | Int32 | UInt32 => 32
  | Int64 | UInt64 => 64
  end.

Definition is_signed (ty : int_type) : bool :=
  match ty with
  | Int16 | Int32 | Int64 => true
  | UInt16 | UInt32 | UInt64 => false
  end.

Definition wrap_unsigned (w z : Z) : Z := z mod 2 ^ w.

Definition wrap_signed (w z : Z) : Z :=
  (z + 2 ^ (w - 1)) mod 2 ^ w - 2 ^ (w - 1).

(** Integral conversion to a field of type [ty]: reduction modulo 2^bits. *)
Definition convert (ty : int_type) (z : Z) : Z :=
  if is_signed ty then wrap_signed (bits ty) z else wrap_unsigned (bits ty) z.

(** Conversion to [int] (a function argument of type [int]). *)
Definition to_int (z : Z) : Z := wrap_signed 32 z.

Definition INT_MIN : Z := - 2 ^ 31.
Definition INT_MAX : Z := 2 ^ 31 - 1.

(** Truncation of a double toward zero; [None] for NaN and infinities. *)
Definition truncate (d : float) : option Z :=
  match Prim2SF d with
  | S754_zero _ => Some 0
  | S754_finite s m e =>
      let a := if 0 <=? e then Z.pos m * 2 ^ e else Z.pos m / 2 ^ (- e) in
      Some (if s then - a else a)
  | S754_infinity _ | S754_nan => None
  end.

(** [(unsigned int) d]. Inside [0, 2^32) this is the truncation of [d].
    Outside, ISO C++ leaves the conversion undefined; the model takes what
    the x86-64 code of the cast does (gcc and clang emit a 64-bit
    [cvttsd2si] and keep the low 32 bits): the truncated value wraps
    modulo 2^32, and what does not fit 64 bits, NaN included, gives the
    low half of the "integer indefinite" value, 0. *)
Definition cast_unsigned_int (d : float) : Z :=
  match truncate d with
  | Some t =>
      if (- 2 ^ 63 <=? t) && (t <? 2 ^ 63) then wrap_unsigned 32 t else 0
  | None => 0
  end.

(** [(double) z] for an [int] [z]: exact, every [int] is a binary64 value. *)
Definition double_of_int (z : Z) : float :=
  if z <? 0 then PrimFloat.opp (PrimFloat.of_uint63 (Uint63.of_Z (- z)))
  else PrimFloat.of_uint63 (Uint63.of_Z z).

(** The exact rational value of a finite double. *)
Definition rational (d : float) : option Q :=
  match Prim2SF d with
  | S754_zero _ => Some (0 # 1)%Q
  | S754_finite s m e =>
      let a := if 0 <=? e then inject_Z (Z.pos m * 2 ^ e)
               else (Z.pos m # Z.to_pos (2 ^ (- e)))%Q in
      Some (if s then Qopp a else a)
  | S754_infinity _ | S754_nan => None
  end.

End Machine.

Import Machine.

(** ** The pulse-width helpers *)

(** [int ServoController::clamp_pulse_width(int pulse_width)] *)
Definition clamp_pulse_width (pulse_width : Z) : Z :=
  if pulse_width <? 500 then 500
  else if pulse_width >? 2500 then 2500
  else pulse_width.

(** [int ServoController::invert_pulse_width(int pulse_width)]. The
    subtraction is an [int] subtraction; it overflows only for arguments
    below [3000 - INT_MAX], which no caller passes (see
    [invert_pulse_width_no_overflow]). *)
Definition invert_pulse_width (pulse_width : Z) : Z := 3000 - pulse_width.

(** [M_PI] of <cmath>: the double nearest to pi. *)
Definition M_PI : float := 0x1.921fb54442d18p+1%float.

(** [double scale = 1.0 * 2000.0 / M_PI;] *)
Definition scale : float := (1.0 * 2000.0 / M_PI)%float.

(** ** Data model *)

(** Modelled from the spec: the types of the fields of [struct Joint],
    which is declared in servo_controller.hpp, outside the translation
    unit. The fields are those [process_parameters] fills in: angles are
    doubles in radians, the channel is an integer, the flags are booleans. *)
Record Joint : Type := mkJoint {
  name : string;
  channel : Z;
  min_angle : float;
  max_angle : float;
  offset_angle : float;
  default_angle : float;
  initialize : bool;
  invert : bool
}.

(** Modelled from the spec: the types of the fields of
    [ssc32u_msgs::msg::ServoCommand], whose definition is outside the
    translation unit. The callback assigns [channel], [pw] and [speed];
    [channel] is copied from the joint, [pw] is an integer field whose
    type is the parameter [ty] of the callback, [speed] is a double. *)
Record ServoCommand : Type := mkServoCommand {
  cmd_channel : Z;
  pw : Z;
  speed : float
}.

(** A default-constructed [ServoCommand]: every field is zero. *)
Definition default_command : ServoCommand :=
  {| cmd_channel := 0; pw := 0; speed := 0%float |}.

(** [trajectory_msgs::msg::JointTrajectoryPoint], the fields the callback reads. *)
Record JointTrajectoryPoint : Type := mkPoint {
  positions : list float;
  velocities : list float
}.

(** [trajectory_msgs::msg::JointTrajectory]. *)
Record JointTrajectory : Type := mkTrajectory {
  joint_names : list string;
  points : list JointTrajectoryPoint
}.

(** Modelled from the spec: the types of the fields of
    [ssc32u_msgs::msg::DiscreteOutput], whose definition is outside the
    translation unit; [relax_joints] assigns [channel] and [output]. *)
Record DiscreteOutput : Type := mkDiscreteOutput {
  out_channel : Z;
  output : Z
}.

(** [sensor_msgs::msg::JointState]: two parallel vectors. *)
Record JointState : Type := mkJointState {
  js_name : list string;
  js_position : list float
}.

(** The two validation failures, as the [RCLCPP_ERROR] lines report them:
    "Joint [%s] does not exist" and
    "The given position [%f] for joint [%s] is invalid". *)
Inductive error : Type :=
| UnknownJointError (reported_name : string)
| AngleOutOfRangeError (angle : float) (joint_name : string).

(** ** Command translation: [joint_command_callback] *)

(** The local state of the callback: the command group under construction,
    the [invalid] flag and the lines written to the error log. *)
Record cb_state : Type := mkState {
  commands : list ServoCommand;
  invalid : bool;
  log : list error
}.

Definition initial_state : cb_state :=
  {| commands := []; invalid := false; log := [] |}.

(** [angle >= joint.min_angle && angle <= joint.max_angle] (IEEE
    comparisons: false when an operand is NaN). *)
Definition angle_valid (joint : Joint) (angle : float) : bool :=
  (min_angle joint <=? angle)%float && (angle <=? max_angle joint)%float.

(** [(unsigned int)(scale * (angle - joint.offset_angle) + 1500 + 0.5)] *)
Definition raw_pulse_width (joint : Joint) (angle : float) : Z :=
  cast_unsigned_int (scale * (angle - offset_angle joint) + 1500 + 0.5)%float.

(** The three assignments to [command.pw] of a valid command, each stored
    in a field of type [ty] and read back as the [int] argument of the
    next helper. *)
Definition command_pw (ty : int_type) (joint : Joint) (angle : float) : Z :=
  let pw0 := convert ty (raw_pulse_width joint angle) in
  let pw1 := convert ty (clamp_pulse_width (to_int pw0)) in
  if invert joint then convert ty (invert_pulse_width (to_int pw1)) else pw1.

(** [command.speed]: assigned only for a supplied, positive velocity. *)
Definition command_speed (pt : JointTrajectoryPoint) (j : nat) : float :=
  match velocities pt !! j with
  | Some v => if (0 <? v)%float then (scale * v)%float else 0%float
  | None => 0%float
  end.

Definition valid_command (ty : int_type) (joint : Joint)
    (pt : JointTrajectoryPoint) (j : nat) (angle : float) : ServoCommand :=
  {| cmd_channel := channel joint;
     pw := command_pw ty joint angle;
     speed := command_speed pt j |}.

Definition push_back (command : ServoCommand) (st : cb_state) : cb_state :=
  {| commands := commands st ++ [command];
     invalid := invalid st;
     log := log st |}.

Definition fail (e : error) (st : cb_state) : cb_state :=
  {| commands := commands st; invalid := true; log := log st ++ [e] |}.

(** The body of the inner loop for point [i] and joint-name index [j].
    [None] is an out-of-bounds vector access: [positions[j]] is read
    unchecked, and the unknown-joint message reads [joint_names[i]]. *)
Definition joint_step (ty : int_type) (joints_map_ : gmap string Joint)
    (msg : JointTrajectory) (i : nat) (pt : JointTrajectoryPoint)
    (j : nat) (joint_name : string) (st : cb_state) : option cb_state :=
  match joints_map_ !! joint_name with
  | Some joint =>
      match positions pt !! j with
      | Some angle =>
          if angle_valid joint angle then
            Some (push_back (valid_command ty joint pt j angle) st)
          else
            Some (push_back default_command
                    (fail (AngleOutOfRangeError angle (name joint)) st))
      | None => None
      end
  | None =>
      match joint_names msg !! i with
      | Some reported =>
          Some (push_back default_command (fail (UnknownJointError reported) st))
      | None => None
      end
  end.

(** [for (j = 0; j < joint_names.size() && !invalid; j++)], entered with
    the names from index [j] on still to visit. *)
Fixpoint joint_loop (ty : int_type) (joints_map_ : gmap string Joint)
    (msg : JointTrajectory) (i : nat) (pt : JointTrajectoryPoint)
    (rest : list string) (j : nat) (st : cb_state) : option cb_state :=
  match rest with
  | [] => Some st
  | joint_name :: rest' =>
      if invalid st then Some st
      else
        match joint_step ty joints_map_ msg i pt j joint_name st with
        | Some st' => joint_loop ty joints_map_ msg i pt rest' (S j) st'
        | None => None
        end
  end.

(** [for (i = 0; i < points.size(); i++)], entered with the points from
    index [i] on still to visit. *)
Fixpoint point_loop (ty : int_type) (joints_map_ : gmap string Joint)
    (msg : JointTrajectory) (rest : list JointTrajectoryPoint) (i : nat)
    (st : cb_state) : option cb_state :=
  match rest with
  | [] => Some st
  | pt :: rest' =>
      match joint_loop ty joints_map_ msg i pt (joint_names msg) 0 st with
      | Some st' => point_loop ty joints_map_ msg rest' (S i) st'
      | None => None
      end
  end.

(** What one call of the callback does to the outside: the command groups
    sent on [servo_cmd] and the error lines logged. *)
Record effects : Type := mkEffects {
  published : list (list ServoCommand);
  logged : list error
}.

(** [void ServoController::joint_command_callback(msg)]; [None] when the
    call runs into an out-of-bounds access. *)
Definition joint_command_callback (ty : int_type)
    (joints_map_ : gmap string Joint) (msg : JointTrajectory) : option effects :=
  match point_loop ty joints_map_ msg (points msg) 0 initial_state with
  | Some st =>
      Some {| published := if invalid st then [] else [commands st];
              logged := log st |}
  | None => None
  end.

(** ** The relax service: [relax_joints] *)

(** One [DiscreteOutput] per entry of [joints_map_], in iteration order. *)
Definition relax_joints (joints_map_ : gmap string Joint) : list DiscreteOutput :=
  (fun entry => {| out_channel := channel entry.2; output := 0 |})
    <$> map_to_list joints_map_.

(** ** State translation: [publish_joint_states] *)

(** The first loop of [publish_joint_states]: the joints in iteration order
    and the channels of the query. *)
Definition joint_list_of (joints_map_ : gmap string Joint) : list Joint :=
  snd <$> map_to_list joints_map_.

Definition request_channels (joints_map_ : gmap string Joint) : list Z :=
  channel <$> joint_list_of joints_map_.

(** [((double)pw - 1500.0) / scale + offset_angle] *)
Definition pulse_width_to_angle (pw : Z) (offset : float) : float :=
  ((double_of_int pw - 1500.0) / scale + offset)%float.

(** The loop of the response callback, entered with the joints from index
    [i] on still to visit. [None]: [result->pulse_width[i]] out of bounds. *)
Fixpoint response_loop (rest : list Joint) (i : nat) (pulse_width : list Z)
    (joint_state_msg : JointState) : option JointState :=
  match rest with
  | [] => Some joint_state_msg
  | joint :: rest' =>
      match pulse_width !! i with
      | Some pw =>
          if 0 <? pw then
            let pw := if invert joint then invert_pulse_width pw else pw in
            let angle := pulse_width_to_angle pw (offset_angle joint) in
            response_loop rest' (S i) pulse_width
              {| js_name := js_name joint_state_msg ++ [name joint];
                 js_position := js_position joint_state_msg ++ [angle] |}
          else response_loop rest' (S i) pulse_width joint_state_msg
      | None => None
      end
  end.

(** [response_received_callback]: the joint state published for a query
    result; the readings arrive already converted to [int]. *)
Definition response_received_callback (joint_list : list Joint)
    (pulse_width : list Z) : option JointState :=
  response_loop joint_list 0 pulse_width {| js_name := []; js_position := [] |}.

(** ** Start-up: [process_parameters] and [setup_publishers] *)

Module Startup.

(** [std::string::npos], and the conversion of an [int] to [size_t]. *)
Definition npos : Z := 2 ^ 64 - 1.

Definition to_size_t (z : Z) : Z := wrap_unsigned 64 z.

(** The index of the first '.' of [s] at or after [pos]. *)
Fixpoint find_dot (s : string) (pos : nat) : option nat :=
  match s with
  | EmptyString => None
  | String c s' =>
      match pos with
      | O => if Ascii.eqb c "."%char then Some 0%nat else S <$> find_dot s' 0
      | S pos' => S <$> find_dot s' pos'
      end
  end.

(** [s.find(".", pos)], a [size_t]: [npos] when there is no such '.'. *)
Definition find (s : string) (pos : Z) : Z :=
  match find_dot s (Z.to_nat pos) with
  | Some k => Z.of_nat k
  | None => npos
  end.

(** [s.substr(pos, count)]: the characters from [pos] on, at most [count]
    of them; [None] when [pos > s.size()] ([std::out_of_range]). *)
Definition substr (s : string) (pos count : Z) : option string :=
  let size := Z.of_nat (String.length s) in
  if size <? pos then None
  else Some (substring (Z.to_nat pos) (Z.to_nat (Z.min count (size - pos))) s).

(** The body of the first loop of [process_parameters]:
    [int start = name.find(".");]
    [int end = name.find(".", start + 1);]
    [name.substr(start + 1, end - start - 1)]. *)
Definition extract_joint_name (name : string) : option string :=
  let start := to_int (find name 0) in
  let end_ := to_int (find name (to_size_t (start + 1))) in
  substr name (to_size_t (start + 1)) (to_size_t (end_ - start - 1)).

(** The node's [get_parameter(name, variable)] of rclcpp, per type of the
    variable: the value the variable holds after the call. *)
Record Parameters : Type := mkParameters {
  get_parameter_int : string -> Z;
  get_parameter_double : string -> float;
  get_parameter_bool : string -> bool
}.

(** The body of the second loop: the joint stored under [name]. *)
Definition read_joint (params : Parameters) (name : string) : Joint :=
  {| name := name;
     channel := get_parameter_int params ("joints." +:+ name +:+ ".channel");
     max_angle := get_parameter_double params ("joints." +:+ name +:+ ".max_angle");
     min_angle := get_parameter_double params ("joints." +:+ name +:+ ".min_angle");
     offset_angle :=
       get_parameter_double params ("joints." +:+ name +:+ ".offset_angle");
     default_angle :=
       get_parameter_double params ("joints." +:+ name +:+ ".default_angle");
     initialize := get_parameter_bool params ("joints." +:+ name +:+ ".initialize");
     invert := get_parameter_bool params ("joints." +:+ name +:+ ".invert") |}.

(** The first loop: the set of extracted joint names; [None] when an
    extraction throws. *)
Definition joint_names_set (names : list string) : option (gset string) :=
  list_to_set <$> mapM extract_joint_name names.

(** The second loop: [joints_map_[name] = joint] for every name of the
    set. The names of a set are distinct, so the order of the iteration
    does not show in the map. *)
Definition fill_joints_map (params : Parameters) (joint_names : gset string)
    (joints_map_ : gmap string Joint) : gmap string Joint :=
  foldr (fun name m => <[name := read_joint params name]> m)
        joints_map_ (elements joint_names).

(** [RCLCPP_WARN(get_logger(), "No joints were provided")] *)
Inductive warning : Type := NoJointsWarning.

(** The members [process_parameters] sets, and the warnings it logs. *)
Record node_state : Type := mkNodeState {
  joints_map_ : gmap string Joint;
  publish_joint_states_ : bool;
  publish_rate_ : Z;
  warnings : list warning
}.

(** [void ServoController::process_parameters()], called once by the
    constructor on the empty [joints_map_]; [names] is the answer of
    [list_parameters({"joints"}, 3)]. *)
Definition process_parameters (params : Parameters) (names : list string)
    : option node_state :=
  match joint_names_set names with
  | Some joint_names =>
      Some {| joints_map_ := fill_joints_map params joint_names ∅;
              publish_joint_states_ :=
                get_parameter_bool params "publish_joint_states";
              publish_rate_ := get_parameter_int params "publish_rate";
              warnings := if decide (length names = 0%nat)
                          then [NoJointsWarning] else [] |}
  | None => None
  end.

(** What [setup_publishers] creates: the topics of the publishers and the
    period, in milliseconds, of the joint-state timer if there is one. *)
Record publishers : Type := mkPublishers {
  topics : list string;
  joint_states_timer_ : option Z
}.

(** [void ServoController::setup_publishers()]. [publish_rate_] is an
    integer ([1000 / publish_rate_] is the count of a
    [std::chrono::milliseconds]), and the division is only evaluated for a
    positive rate. *)
Definition setup_publishers (st : node_state) : publishers :=
  {| topics :=
       ["discrete_output"; "servo_cmd"]
       ++ (if publish_joint_states_ st then ["joint_states"] else []);
     joint_states_timer_ :=
       if publish_joint_states_ st then
         if 0 <? publish_rate_ st then Some (1000 ÷ publish_rate_ st) else None
       else None |}.

End Startup.

(** * Specification-side definitions *)

(** ** Entries of a trajectory message *)

(** An entry (point, joint-name index) that passes both checks. *)
Definition valid_entry (joints_map_ : gmap string Joint)
    (pt : JointTrajectoryPoint) (j : nat) (joint_name : string) : Prop :=
  exists joint angle,
    joints_map_ !! joint_name = Some joint
    /\ positions pt !! j = Some angle
    /\ angle_valid joint angle = true.

(** An entry that fails a check, with the error line it causes. *)
Definition offending (joints_map_ : gmap string Joint) (msg : JointTrajectory)
    (i : nat) (pt : JointTrajectoryPoint) (j : nat) (joint_name : string)
    (e : error) : Prop :=
  (joints_map_ !! joint_name = None
   /\ exists reported,
        joint_names msg !! i = Some reported /\ e = UnknownJointError reported)
  \/ (exists joint angle,
        joints_map_ !! joint_name = Some joint
        /\ positions pt !! j = Some angle
        /\ angle_valid joint angle = false
        /\ e = AngleOutOfRangeError angle (name joint)).

(** The command of a valid entry, by registry lookup. *)
Definition entry_command (ty : int_type) (joints_map_ : gmap string Joint)
    (pt : JointTrajectoryPoint) (j : nat) (joint_name : string) : ServoCommand :=
  match joints_map_ !! joint_name, positions pt !! j with
  | Some joint, Some angle => valid_command ty joint pt j angle
  | _, _ => default_command
  end.

Fixpoint translate_names (ty : int_type) (joints_map_ : gmap string Joint)
    (pt : JointTrajectoryPoint) (rest : list string) (j : nat)
    : list ServoCommand :=
  match rest with
  | [] => []
  | joint_name :: rest' =>
      entry_command ty joints_map_ pt j joint_name
      :: translate_names ty joints_map_ pt rest' (S j)
  end.

(** The commands of all points, point after point, each in joint-name order. *)
Definition translate_points (ty : int_type) (joints_map_ : gmap string Joint)
    (names : list string) (pts : list JointTrajectoryPoint) : list ServoCommand :=
  concat ((fun pt => translate_names ty joints_map_ pt names 0) <$> pts).

(** Every point carries a position for every joint name. *)
Definition positions_cover_names (msg : JointTrajectory) : Prop :=
  forall pt, pt ∈ points msg ->
    (length (joint_names msg) <= length (positions pt))%nat.

(** Every entry before entry [(i, j)], in the order of the loops, is valid. *)
Definition valid_before (joints_map_ : gmap string Joint)
    (msg : JointTrajectory) (i j : nat) : Prop :=
  forall i' pt' j' n',
    (i' < i)%nat \/ (i' = i /\ (j' < j)%nat) ->
    points msg !! i' = Some pt' -> joint_names msg !! j' = Some n' ->
    valid_entry joints_map_ pt' j' n'.

(** The nearest integer, ties upward: the [round] of the specification. *)
Definition round_half_up (q : Q) : Z := Qfloor (q + (1 # 2)).

(** The sample of one position, in the words of the specification: for a
    positive reading, inversion undone if the joint is inverted, then
    [(pw - 1500) / scale + offset_angle]; nothing for other readings. *)
Definition joint_sample (joint : Joint) (reading : Z) : option (string * float) :=
  if 0 <? reading then
    let pw := if invert joint then 3000 - reading else reading in
    Some (name joint,
          ((double_of_int pw - 1500.0) / scale + offset_angle joint)%float)
  else None.

Definition state_samples (joint_list : list Joint) (pulse_width : list Z)
    : list (string * float) :=
  omap (fun entry => joint_sample entry.1 entry.2) (zip joint_list pulse_width).

(** ** Sample configurations and messages *)

Module Sample.

(** The joint of the specification's examples: channel 3, range [-1, 1],
    no offset, not inverted. *)
Definition joint3 : Joint :=
  {| name := "j3"; channel := 3;
     min_angle := (-1.0)%float; max_angle := 1.0%float;
     offset_angle := 0%float; default_angle := 0%float;
     initialize := false; invert := false |}.

(** The same range with the mechanical zero at 3 rad. *)
Definition joint_offset3 : Joint :=
  {| name := "off"; channel := 4;
     min_angle := (-1.0)%float; max_angle := 1.0%float;
     offset_angle := 3.0%float; default_angle := 0%float;
     initialize := false; invert := false |}.

(** The same range with a very large offset. *)
Definition joint_far : Joint :=
  {| name := "far"; channel := 5;
     min_angle := (-1.0)%float; max_angle := 1.0%float;
     offset_angle := 5059876.0%float; default_angle := 0%float;
     initialize := false; invert := false |}.

Definition registry : gmap string Joint :=
  <["j3" := joint3]> (<["off" := joint_offset3]> (<["far" := joint_far]> ∅)).

Definition point (angle : float) : JointTrajectoryPoint :=
  {| positions := [angle]; velocities := [] |}.

(** One point, joint "j3" commanded to angle 0. *)
Definition centre : JointTrajectory :=
  {| joint_names := ["j3"]; points := [point 0%float] |}.

(** An unregistered joint name and no point at all. *)
Definition ghost_without_points : JointTrajectory :=
  {| joint_names := ["ghost"]; points := [] |}.

(** Two points for "j3": angle 0, then the out-of-range angle 2. *)
Definition good_then_bad : JointTrajectory :=
  {| joint_names := ["j3"]; points := [point 0%float; point 2.0%float] |}.

(** A point without any position. *)
Definition no_positions : JointTrajectory :=
  {| joint_names := ["j3"];
     points := [{| positions := []; velocities := [] |}] |}.

Definition centre_command : ServoCommand :=
  {| cmd_channel := 3; pw := 1500; speed := 0%float |}.

End Sample.

(** ** Validity of a whole trajectory *)

(** Every entry of the points [pts] is valid for the joint names [names]. *)
Definition all_entries_valid (joints_map_ : gmap string Joint)
    (names : list string) (pts : list JointTrajectoryPoint) : Prop :=
  forall i pt j joint_name,
    pts !! i = Some pt -> names !! j = Some joint_name ->
    valid_entry joints_map_ pt j joint_name.

(** ** Well-formed parameter names *)

(** A string without any '.'. *)
Definition dot_free (s : string) : Prop := Startup.find_dot s 0 = None.

(** ** Further sample inputs *)

Module Scenario.

(** The joint [joint3] mounted the other way round. *)
Definition joint3_inverted : Joint :=
  {| name := "inv"; channel := 6;
     min_angle := (-1.0)%float; max_angle := 1.0%float;
     offset_angle := 0%float; default_angle := 0%float;
     initialize := false; invert := true |}.

Definition registry : gmap string Joint :=
  <["inv" := joint3_inverted]> Sample.registry.

(** Two points for the joints "j3" and "inv"; only the first point has a
    velocity, and only for "j3". *)
Definition two_by_two : JointTrajectory :=
  {| joint_names := ["j3"; "inv"];
     points := [ {| positions := [0%float; 0.5%float];
                    velocities := [1.0%float] |};
                 {| positions := [0.5%float; (-0.5)%float];
                    velocities := [] |} ] |}.

Definition two_by_two_group : list ServoCommand :=
  [ {| cmd_channel := 3; pw := 1500; speed := scale |};
    {| cmd_channel := 6; pw := 1182; speed := 0%float |};
    {| cmd_channel := 3; pw := 1818; speed := 0%float |};
    {| cmd_channel := 6; pw := 1818; speed := 0%float |} ].

(** A point that names an unknown joint after a known one. *)
Definition ghost_second : JointTrajectory :=
  {| joint_names := ["j3"; "ghost"];
     points := [ {| positions := [0%float; 0%float]; velocities := [] |} ] |}.

(** Parameters as a launch file would give them for two joints; every
    integer parameter reads 7, every double 0, every flag [true]. *)
Definition parameters : Startup.Parameters :=
  {| Startup.get_parameter_int := fun _ => 7;
     Startup.get_parameter_double := fun _ => 0%float;
     Startup.get_parameter_bool := fun _ => true |}.

Definition parameter_names : list string :=
  ["joints.base.channel"; "joints.base.invert";
   "joints.elbow.channel"; "joints.elbow.max_angle"].

End Scenario.

(** ** Rounding of the double operations *)

(** The rounding of the double operations of the two conversions is
    bounded over the rationals, from the definitions of [SpecFloat] that
    specify the primitive operations. *)

(** 2^e as a rational, for any integer e. *)
Definition pow2 (e : Z) : Q := (2 ^ e)%Q.

Arguments pow2 : simpl never.

(** The exponent of the smallest positive double, 2^-1074. *)
Definition emin64 : Z := -1074.

(** The signed value of a finite binary float. *)
Definition F2Q (s : bool) (m : positive) (e : Z) : Q :=
  ((if s then -1 else 1) * (inject_Z (Z.pos m) * pow2 e))%Q.

(** The value of a float of [SpecFloat]; none for an infinity or a NaN. *)
Definition SF2Q (x : spec_float) : option Q :=
  match x with
  | S754_zero _ => Some 0%Q
  | S754_finite s m e => Some (F2Q s m e)
  | S754_infinity _ | S754_nan => None
  end.

(** The value a shift record stands for, in units of its mantissa: the
    round and sticky bits place it at, or strictly between, the mantissa,
    the mantissa plus one half and the mantissa plus one. *)
Definition represents (mrs : shr_record) (x : Q) : Prop :=
  let m := inject_Z (shr_m mrs) in
  match shr_r mrs, shr_s mrs with
  | false, false => (x == m)%Q
  | false, true => (m < x /\ x < m + (1 # 2))%Q
  | true, false => (x == m + (1 # 2))%Q
  | true, true => (m + (1 # 2) < x /\ x < m + 1)%Q
  end.

(** [r] is a rounding of the exact value [z]: within 3/2 units of the
    last place of a finite result, at most 3/2 of the smallest positive
    double for a zero, and at least 2^971 in size for an infinity. *)
Definition rounds_to (z : Q) (r : spec_float) : Prop :=
  match r with
  | S754_finite s m e => (Qabs (F2Q s m e - z) <= (3 # 2) * pow2 e)%Q
  | S754_zero _ => (Qabs z <= (3 # 2) * pow2 emin64)%Q
  | S754_infinity _ => (pow2 971 <= Qabs z)%Q
  | S754_nan => False
  end.

(** The exact value of the double [scale]. *)
Definition scale_value : Q := (5599766737522128 # 8796093022208)%Q.

(** The tolerance of the round trip for angles below 2^k in size: half a
    pulse-width step, 1 / (2 scale), with the rounding of the double
    operations on the way to the pulse width and back. *)
Definition round_trip_tolerance (k : Z) : Q :=
  (((1 # 2) + pow2 (-38)) / scale_value + 3 * pow2 (k - 53))%Q.

(** * Properties *)

(** ** The pulse-width helpers *)

Lemma clamp_pulse_width_range (p : Z) :
  500 <= clamp_pulse_width p <= 2500.
Proof.
  unfold clamp_pulse_width. rewrite Z.gtb_ltb.
  destruct (Z.ltb_spec p 500); [lia|].
  destruct (Z.ltb_spec 2500 p); lia.
Qed.

Lemma clamp_pulse_width_id (p : Z) :
  500 <= p <= 2500 -> clamp_pulse_width p = p.
Proof.
  intros [Hlo Hhi]. unfold clamp_pulse_width. rewrite Z.gtb_ltb.
  destruct (Z.ltb_spec p 500); [lia|].
  destruct (Z.ltb_spec 2500 p); lia.
Qed.

Lemma invert_pulse_width_no_overflow (p : Z) :
  0 < p <= INT_MAX -> INT_MIN <= invert_pulse_width p <= INT_MAX.
Proof. unfold invert_pulse_width, INT_MIN, INT_MAX. lia. Qed.

(** C7. Pulse-width inversion reflects around 1500, maps the valid range
    [500, 2500] into itself and is its own inverse there:
    [invert p = 3000 - p], [invert p] is in [500, 2500], and
    [invert (invert p) = p]. *)
Theorem invert_pulse_width_involutive_in_range (p : Z) :
  500 <= p <= 2500 ->
  invert_pulse_width p = 3000 - p
  /\ 500 <= invert_pulse_width p <= 2500
  /\ invert_pulse_width (invert_pulse_width p) = p
  /\ invert_pulse_width p - 1500 = - (p - 1500).
Proof. unfold invert_pulse_width. lia. Qed.

Lemma invert_pulse_width_involutive_in_range_witness :
  500 <= 700 <= 2500
  /\ invert_pulse_width 700 = 2300
  /\ invert_pulse_width (invert_pulse_width 700) = 700.
Proof.
  split; [lia|].
  destruct (invert_pulse_width_involutive_in_range 700 ltac:(lia))
    as (H1 & _ & H3 & _).
  split; [exact H1 | exact H3].
Defined.

(** ** Conversions that lose nothing *)

Lemma convert_small (ty : int_type) (z : Z) :
  0 <= z < 2 ^ 15 -> convert ty z = z.
Proof.
  intros Hz. unfold convert, wrap_signed, wrap_unsigned.
  destruct ty; simpl; rewrite Z.mod_small; lia.
Qed.

Lemma to_int_small (z : Z) : INT_MIN <= z <= INT_MAX -> to_int z = z.
Proof.
  unfold to_int, wrap_signed, INT_MIN, INT_MAX. intros Hz.
  rewrite Z.mod_small; lia.
Qed.

(** The forward path clamps first and inverts afterwards; storing the
    clamped and the inverted value in the [pw] field changes neither. *)
Lemma command_pw_clamp_then_invert (ty : int_type) (joint : Joint) (angle : float) :
  let clamped :=
    clamp_pulse_width (to_int (convert ty (raw_pulse_width joint angle))) in
  command_pw ty joint angle
  = (if invert joint then invert_pulse_width clamped else clamped).
Proof.
  intros clamped. unfold command_pw. fold clamped.
  pose proof (clamp_pulse_width_range
                (to_int (convert ty (raw_pulse_width joint angle)))) as Hc.
  fold clamped in Hc.
  assert (Hs : convert ty clamped = clamped) by (apply convert_small; lia).
  rewrite Hs. destruct (invert joint); [|reflexivity].
  rewrite to_int_small by (unfold INT_MIN, INT_MAX; lia).
  apply convert_small. unfold invert_pulse_width. lia.
Qed.

Lemma command_pw_range (ty : int_type) (joint : Joint) (angle : float) :
  500 <= command_pw ty joint angle <= 2500.
Proof.
  rewrite command_pw_clamp_then_invert.
  pose proof (clamp_pulse_width_range
                (to_int (convert ty (raw_pulse_width joint angle)))) as Hc.
  destruct (invert joint); unfold invert_pulse_width; lia.
Qed.

(** ** What the loops of the callback compute *)

Section Callback.

Variable ty : int_type.
Variable joints_map_ : gmap string Joint.
Variable msg : JointTrajectory.

Lemma length_translate_names pt rest j :
  length (translate_names ty joints_map_ pt rest j) = length rest.
Proof. revert j. induction rest as [|n rest IH]; intros j; simpl; auto. Qed.

Lemma joint_step_inv i pt j joint_name st st' :
  joint_step ty joints_map_ msg i pt j joint_name st = Some st' ->
  (valid_entry joints_map_ pt j joint_name
   /\ st' = push_back (entry_command ty joints_map_ pt j joint_name) st)
  \/ (exists e, offending joints_map_ msg i pt j joint_name e
                /\ st' = push_back default_command (fail e st)).
Proof.
  unfold joint_step, entry_command.
  destruct (joints_map_ !! joint_name) as [joint|] eqn:Hreg.
  - destruct (positions pt !! j) as [angle|] eqn:Hpos; [|discriminate].
    destruct (angle_valid joint angle) eqn:Hv; intros [= <-].
    + left. split; [|reflexivity]. exists joint, angle. auto.
    + right. eexists. split; [|reflexivity].
      right. exists joint, angle. auto.
  - destruct (joint_names msg !! i) as [reported|] eqn:Hrep; [|discriminate].
    intros [= <-]. right. eexists. split; [|reflexivity].
    left. split; [exact Hreg|]. exists reported. auto.
Qed.

Lemma joint_loop_invalid i pt rest j st :
  invalid st = true -> joint_loop ty joints_map_ msg i pt rest j st = Some st.
Proof. intros H. destruct rest; simpl; [|rewrite H]; reflexivity. Qed.

Lemma point_loop_invalid rest i st :
  invalid st = true -> point_loop ty joints_map_ msg rest i st = Some st.
Proof.
  intros H. revert i. induction rest as [|pt rest IH]; intros i; simpl.
  - reflexivity.
  - rewrite joint_loop_invalid by exact H. apply IH.
Qed.

(** One run of the inner loop from a state that is not invalid: either
    every remaining entry of the point was valid and its command appended,
    or the run stopped at the first offending entry, logged it and appended
    a default-constructed command. *)
Lemma joint_loop_spec i pt rest j st st' :
  invalid st = false ->
  joint_loop ty joints_map_ msg i pt rest j st = Some st' ->
  (invalid st' = false
   /\ log st' = log st
   /\ commands st' = commands st ++ translate_names ty joints_map_ pt rest j
   /\ forall k joint_name,
        rest !! k = Some joint_name ->
        valid_entry joints_map_ pt (j + k) joint_name)
  \/ (invalid st' = true
      /\ exists k joint_name e,
           rest !! k = Some joint_name
           /\ offending joints_map_ msg i pt (j + k) joint_name e
           /\ (forall k' n', (k' < k)%nat -> rest !! k' = Some n' ->
                 valid_entry joints_map_ pt (j + k') n')
           /\ log st' = log st ++ [e]
           /\ last (commands st') = Some default_command).
Proof.
  revert j st. induction rest as [|joint_name rest IH]; intros j st Hinv; simpl.
  - intros [= <-]. left. rewrite app_nil_r. repeat split; auto.
    intros k n Hk. discriminate.
  - rewrite Hinv.
    destruct (joint_step ty joints_map_ msg i pt j joint_name st)
      as [st1|] eqn:Hstep; [|discriminate].
    intros Hloop.
    destruct (joint_step_inv _ _ _ _ _ _ Hstep) as [[Hv ->]|(e & Hoff & ->)].
    + apply IH in Hloop; [|exact Hinv]. simpl in Hloop.
      destruct Hloop as [(Hi & Hl & Hc & Hall)
                        |(Hi & k & n & e & Hk & Hoff & Hbefore & Hl & Hlast)].
      * left. split; [exact Hi|]. split; [exact Hl|]. split.
        { rewrite Hc. simpl. rewrite <- app_assoc. reflexivity. }
        intros [|k] n Hk; simpl in Hk.
        { injection Hk as <-. rewrite Nat.add_0_r. exact Hv. }
        { replace (j + S k)%nat with (S j + k)%nat by lia. eauto. }
      * right. split; [exact Hi|]. exists (S k), n, e.
        replace (j + S k)%nat with (S j + k)%nat by lia.
        repeat split; auto.
        intros [|k'] n' Hlt Hk'; simpl in Hk'.
        { injection Hk' as <-. rewrite Nat.add_0_r. exact Hv. }
        { replace (j + S k')%nat with (S j + k')%nat by lia.
          apply Hbefore; [lia | exact Hk']. }
    + rewrite joint_loop_invalid in Hloop by reflexivity.
      injection Hloop as <-. right. split; [reflexivity|].
      exists 0%nat, joint_name, e. rewrite Nat.add_0_r.
      repeat split; auto; [intros; lia|]. simpl. apply last_snoc.
Qed.

(** The same for the outer loop. *)
Lemma point_loop_spec rest i st st' :
  invalid st = false ->
  point_loop ty joints_map_ msg rest i st = Some st' ->
  (invalid st' = false
   /\ log st' = log st
   /\ commands st'
      = commands st ++ translate_points ty joints_map_ (joint_names msg) rest
   /\ forall k pt j joint_name,
        rest !! k = Some pt ->
        joint_names msg !! j = Some joint_name ->
        valid_entry joints_map_ pt j joint_name)
  \/ (invalid st' = true
      /\ exists k pt j joint_name e,
           rest !! k = Some pt
           /\ joint_names msg !! j = Some joint_name
           /\ offending joints_map_ msg (i + k) pt j joint_name e
           /\ (forall k' pt' j' n',
                 (k' < k)%nat \/ (k' = k /\ (j' < j)%nat) ->
                 rest !! k' = Some pt' -> joint_names msg !! j' = Some n' ->
                 valid_entry joints_map_ pt' j' n')
           /\ log st' = log st ++ [e]
           /\ last (commands st') = Some default_command).
Proof.
  revert i st. induction rest as [|pt rest IH]; intros i st Hinv; simpl.
  - intros [= <-]. left. unfold translate_points. simpl. rewrite app_nil_r.
    repeat split; auto. intros k pt j n Hk. discriminate.
  - destruct (joint_loop ty joints_map_ msg i pt (joint_names msg) 0 st)
      as [st1|] eqn:Hjl; [|discriminate].
    intros Hloop.
    destruct (joint_loop_spec _ _ _ _ _ _ Hinv Hjl)
      as [(Hi & Hl & Hc & Hall)
         |(Hi & j & n & e & Hj & Hoff & Hbefore & Hl & Hlast)].
    + apply IH in Hloop; [|exact Hi].
      destruct Hloop as [(Hi' & Hl' & Hc' & Hall')
                        |(Hi' & k & pt' & j & n & e & Hk & Hj & Hoff
                          & Hbefore & Hl' & Hlast)].
      * left. split; [exact Hi'|]. split; [congruence|]. split.
        { rewrite Hc', Hc. unfold translate_points. simpl.
          rewrite <- app_assoc. reflexivity. }
        intros [|k] pt' j n Hk Hj; simpl in Hk.
        { injection Hk as <-. apply (Hall j n Hj). }
        { eauto. }
      * right. split; [exact Hi'|]. exists (S k), pt', j, n, e.
        replace (i + S k)%nat with (S i + k)%nat by lia.
        repeat split; auto; [|congruence].
        intros [|k'] pt'' j' n' Hlt Hk' Hj'; simpl in Hk'.
        { injection Hk' as <-. apply (Hall j' n' Hj'). }
        { apply (Hbefore k' pt'' j' n'); [lia | exact Hk' | exact Hj']. }
    + rewrite point_loop_invalid in Hloop by exact Hi.
      injection Hloop as <-. right. split; [exact Hi|].
      exists 0%nat, pt, j, n, e. rewrite Nat.add_0_r.
      repeat split; auto.
      intros k' pt' j' n' [Hlt|[-> Hlt]] Hk' Hj'; [lia|].
      simpl in Hk'. injection Hk' as <-.
      apply (Hbefore j' n' Hlt Hj').
Qed.

(** No read goes out of bounds when the point has a position for every
    remaining name and the name reported for an unknown joint exists. *)
Lemma joint_loop_total i pt rest j st :
  (forall k joint_name, rest !! k = Some joint_name ->
     (j + k < length (positions pt))%nat) ->
  (is_Some (joint_names msg !! i)
   \/ forall joint_name, joint_name ∈ rest -> is_Some (joints_map_ !! joint_name)) ->
  is_Some (joint_loop ty joints_map_ msg i pt rest j st).
Proof.
  revert j st. induction rest as [|joint_name rest IH]; intros j st Hpos Hrep; simpl.
  - eauto.
  - destruct (invalid st); [eauto|].
    assert (Hstep : is_Some (joint_step ty joints_map_ msg i pt j joint_name st)).
    { unfold joint_step.
      destruct (joints_map_ !! joint_name) as [joint|] eqn:Hreg.
      - destruct (lookup_lt_is_Some_2 (positions pt) j) as [angle ->].
        { specialize (Hpos 0%nat joint_name eq_refl). lia. }
        destruct (angle_valid joint angle); eauto.
      - destruct Hrep as [[reported ->]|Hall]; [eauto|].
        destruct (Hall joint_name) as [joint Hjoint]; [left|congruence]. }
    destruct Hstep as [st1 ->]. apply IH.
    + intros k n Hk. specialize (Hpos (S k) n Hk). lia.
    + destruct Hrep as [Hrep|Hall]; [left; exact Hrep|].
      right. intros n Hn. apply Hall. right. exact Hn.
Qed.

Lemma point_loop_total rest i st :
  (forall pt, pt ∈ rest ->
     (length (joint_names msg) <= length (positions pt))%nat) ->
  (i = 0%nat
   \/ forall joint_name, joint_name ∈ joint_names msg ->
        is_Some (joints_map_ !! joint_name)) ->
  is_Some (point_loop ty joints_map_ msg rest i st).
Proof.
  revert i st. induction rest as [|pt rest IH]; intros i st Hlen Hreg; simpl.
  - eauto.
  - destruct (invalid st) eqn:Hinv.
    { rewrite joint_loop_invalid by exact Hinv.
      rewrite point_loop_invalid by exact Hinv. eauto. }
    destruct (joint_loop_total i pt (joint_names msg) 0 st) as [st1 Hjl].
    { intros k n Hk. apply lookup_lt_Some in Hk.
      specialize (Hlen pt ltac:(left)). lia. }
    { destruct Hreg as [->|Hall]; [|right; exact Hall].
      destruct (joint_names msg) as [|n names]; [right|left; simpl; eauto].
      intros n Hn. inversion Hn. }
    rewrite Hjl.
    destruct (joint_loop_spec _ _ _ _ _ _ Hinv Hjl)
      as [(Hi & _ & _ & Hall)|(Hi & _)].
    + apply IH.
      * intros pt' Hpt'. apply Hlen. right. exact Hpt'.
      * right. intros n Hn. apply list_elem_of_lookup in Hn as [k Hk].
        destruct (Hall k n Hk) as (joint & _ & Hjoint & _). eauto.
    + rewrite point_loop_invalid by exact Hi. eauto.
Qed.

End Callback.

(** ** The callback as a whole *)

Lemma elem_of_translate_names ty joints_map_ pt rest j c :
  c ∈ translate_names ty joints_map_ pt rest j ->
  exists k joint_name,
    rest !! k = Some joint_name
    /\ c = entry_command ty joints_map_ pt (j + k) joint_name.
Proof.
  revert j. induction rest as [|n rest IH]; intros j; simpl.
  - intros H. inversion H.
  - rewrite elem_of_cons. intros [->|H].
    + exists 0%nat, n. rewrite Nat.add_0_r. auto.
    + destruct (IH _ H) as (k & n' & Hk & ->). exists (S k), n'.
      replace (j + S k)%nat with (S j + k)%nat by lia. auto.
Qed.

Lemma elem_of_translate_points ty joints_map_ names pts c :
  c ∈ translate_points ty joints_map_ names pts ->
  exists i pt j joint_name,
    pts !! i = Some pt /\ names !! j = Some joint_name
    /\ c = entry_command ty joints_map_ pt j joint_name.
Proof.
  unfold translate_points. induction pts as [|pt pts IH]; simpl.
  - intros H. inversion H.
  - rewrite elem_of_app. intros [H|H].
    + destruct (elem_of_translate_names _ _ _ _ _ _ H) as (j & n & Hj & ->).
      exists 0%nat, pt, j, n. auto.
    + destruct (IH H) as (i & pt' & j & n & Hi & Hj & ->).
      exists (S i), pt', j, n. auto.
Qed.

Lemma length_translate_points ty joints_map_ names pts :
  length (translate_points ty joints_map_ names pts)
  = (length pts * length names)%nat.
Proof.
  unfold translate_points. induction pts as [|pt pts IH]; [reflexivity|].
  rewrite fmap_cons. cbn [concat].
  rewrite length_app, length_translate_names, IH. reflexivity.
Qed.

Lemma joint_command_callback_total ty joints_map_ msg :
  positions_cover_names msg ->
  is_Some (joint_command_callback ty joints_map_ msg).
Proof.
  intros Hlen. unfold joint_command_callback.
  destruct (point_loop_total ty joints_map_ msg (points msg) 0 initial_state)
    as [st ->]; [exact Hlen | left; reflexivity | eauto].
Qed.

(** The two ways a call can end: one group with the commands of all points
    published and nothing logged, or nothing published and the first
    offending entry logged. *)
Lemma joint_command_callback_cases ty joints_map_ msg eff :
  joint_command_callback ty joints_map_ msg = Some eff ->
  (published eff
   = [translate_points ty joints_map_ (joint_names msg) (points msg)]
   /\ logged eff = []
   /\ forall i pt j joint_name,
        points msg !! i = Some pt -> joint_names msg !! j = Some joint_name ->
        valid_entry joints_map_ pt j joint_name)
  \/ (published eff = []
      /\ exists i pt j joint_name e,
           points msg !! i = Some pt
           /\ joint_names msg !! j = Some joint_name
           /\ offending joints_map_ msg i pt j joint_name e
           /\ valid_before joints_map_ msg i j
           /\ logged eff = [e]).
Proof.
  unfold joint_command_callback.
  destruct (point_loop ty joints_map_ msg (points msg) 0 initial_state)
    as [st|] eqn:Hloop; [|discriminate].
  intros [= <-]. simpl.
  destruct (point_loop_spec ty joints_map_ msg (points msg) 0 initial_state st
              eq_refl Hloop)
    as [(Hi & Hl & Hc & Hall)
       |(Hi & i & pt & j & n & e & Hpt & Hj & Hoff & Hbefore & Hl & _)].
  - left. rewrite Hi, Hl, Hc. auto.
  - right. rewrite Hi, Hl. split; [reflexivity|].
    exists i, pt, j, n, e. repeat split; auto.
Qed.

(** ** Properties of command translation *)

(** C1. Every ServoCommand that command translation publishes has a pulse
    width in [500, 2500]: the raw value is clamped to [500, 2500] first,
    and the inversion 3000 - pw, applied afterwards and only for a joint
    with the invert flag, keeps it in that range. *)
Theorem published_pulse_width_in_range ty joints_map_ msg eff :
  joint_command_callback ty joints_map_ msg = Some eff ->
  forall batch c, batch ∈ published eff -> c ∈ batch ->
    500 <= pw c <= 2500
    /\ exists joint_name joint angle,
         joints_map_ !! joint_name = Some joint
         /\ angle_valid joint angle = true
         /\ let clamped :=
              clamp_pulse_width
                (to_int (convert ty (raw_pulse_width joint angle))) in
            500 <= clamped <= 2500
            /\ pw c = if invert joint then 3000 - clamped else clamped.
Proof.
  intros Hcall batch c Hbatch Hc.
  destruct (joint_command_callback_cases _ _ _ _ Hcall)
    as [(Hpub & _ & Hall)|(Hpub & _)].
  - rewrite Hpub in Hbatch. apply list_elem_of_singleton in Hbatch as ->.
    apply elem_of_translate_points in Hc as (i & pt & j & n & Hi & Hj & ->).
    destruct (Hall i pt j n Hi Hj) as (joint & angle & Hreg & Hpos & Hv).
    unfold entry_command. rewrite Hreg, Hpos. simpl.
    split; [apply command_pw_range|].
    exists n, joint, angle. split; [exact Hreg|]. split; [exact Hv|].
    split; [apply clamp_pulse_width_range|].
    apply command_pw_clamp_then_invert.
  - rewrite Hpub in Hbatch. inversion Hbatch.
Qed.

Lemma published_pulse_width_in_range_witness :
  joint_command_callback UInt16 Sample.registry Sample.centre
  = Some {| published := [[Sample.centre_command]]; logged := [] |}
  /\ 500 <= pw Sample.centre_command <= 2500.
Proof.
  split; [vm_compute; reflexivity|].
  apply (published_pulse_width_in_range UInt16 Sample.registry Sample.centre
           {| published := [[Sample.centre_command]]; logged := [] |}
           ltac:(vm_compute; reflexivity)
           [Sample.centre_command] Sample.centre_command);
    apply list_elem_of_singleton; reflexivity.
Defined.

(** C3, as the code has it. A call accumulates the commands of all points
    in one group and publishes at most once: either the whole trajectory,
    point after point, when every entry is valid, or nothing at all when an
    entry of some point k fails validation, although every point before k
    was valid. *)
Theorem trajectory_published_whole_or_not_at_all ty joints_map_ msg :
  positions_cover_names msg ->
  exists eff,
    joint_command_callback ty joints_map_ msg = Some eff
    /\ ((published eff
         = [translate_points ty joints_map_ (joint_names msg) (points msg)]
         /\ length (translate_points ty joints_map_ (joint_names msg) (points msg))
            = (length (points msg) * length (joint_names msg))%nat
         /\ logged eff = []
         /\ forall i pt j joint_name,
              points msg !! i = Some pt ->
              joint_names msg !! j = Some joint_name ->
              valid_entry joints_map_ pt j joint_name)
        \/ (published eff = []
            /\ exists k pt j joint_name e,
                 points msg !! k = Some pt
                 /\ joint_names msg !! j = Some joint_name
                 /\ offending joints_map_ msg k pt j joint_name e
                 /\ valid_before joints_map_ msg k j
                 /\ logged eff = [e])).
Proof.
  intros Hlen.
  destruct (joint_command_callback_total ty joints_map_ msg Hlen) as [eff Hcall].
  exists eff. split; [exact Hcall|].
  destruct (joint_command_callback_cases _ _ _ _ Hcall)
    as [(Hpub & Hlog & Hall)|Hbad].
  - left. split; [exact Hpub|]. split; [apply length_translate_points|]. auto.
  - right. exact Hbad.
Qed.

Lemma positions_cover_names_good_then_bad :
  positions_cover_names Sample.good_then_bad.
Proof.
  intros pt Hpt. simpl in Hpt.
  repeat (apply elem_of_cons in Hpt as [->|Hpt]; [simpl; lia|]).
  inversion Hpt.
Qed.

Lemma trajectory_published_whole_or_not_at_all_witness :
  exists eff,
    joint_command_callback Int32 Sample.registry Sample.good_then_bad = Some eff
    /\ published eff = [].
Proof.
  destruct (trajectory_published_whole_or_not_at_all Int32 Sample.registry
              Sample.good_then_bad positions_cover_names_good_then_bad)
    as (eff & Hcall & Hcases).
  exists eff. split; [exact Hcall|].
  assert (Heff : Some eff
                 = Some {| published := [];
                           logged := [AngleOutOfRangeError 2.0%float "j3"] |}).
  { rewrite <- Hcall. vm_compute. reflexivity. }
  injection Heff as ->. reflexivity.
Defined.

(** C3 as stated fails: the first point of [good_then_bad] is valid and
    would be published on its own, the second is out of range, and the call
    publishes nothing, the commands of the first point included. *)
Lemma earlier_points_are_not_published :
  (forall ty,
     joint_command_callback ty Sample.registry Sample.centre
     = Some {| published := [[Sample.centre_command]]; logged := [] |})
  /\ (forall ty,
        joint_command_callback ty Sample.registry Sample.good_then_bad
        = Some {| published := [];
                  logged := [AngleOutOfRangeError 2.0%float "j3"] |}).
Proof. split; intros []; vm_compute; reflexivity. Qed.

(** C2, as the code has it. A message with at least one point, each with
    a position for every joint name, that names an unregistered joint or
    commands a registered joint to an angle outside its inclusive
    [min_angle, max_angle] range: the call logs exactly one error, the one
    of the first offending entry (unknown joint or angle out of range), and
    publishes nothing. At an out-of-range angle the step sets the flag,
    logs, and appends a default-constructed command: no pulse width is
    computed from the angle. *)
Theorem invalid_command_is_rejected ty joints_map_ msg :
  points msg <> [] ->
  positions_cover_names msg ->
  ((exists joint_name,
      joint_name ∈ joint_names msg /\ joints_map_ !! joint_name = None)
   \/ (exists i pt j joint_name joint angle,
         points msg !! i = Some pt
         /\ joint_names msg !! j = Some joint_name
         /\ joints_map_ !! joint_name = Some joint
         /\ positions pt !! j = Some angle
         /\ angle_valid joint angle = false)) ->
  (exists eff e i pt j joint_name,
     joint_command_callback ty joints_map_ msg = Some eff
     /\ published eff = []
     /\ logged eff = [e]
     /\ points msg !! i = Some pt
     /\ joint_names msg !! j = Some joint_name
     /\ offending joints_map_ msg i pt j joint_name e
     /\ valid_before joints_map_ msg i j)
  /\ (forall i pt j joint_name joint angle st,
        joints_map_ !! joint_name = Some joint ->
        positions pt !! j = Some angle ->
        angle_valid joint angle = false ->
        joint_step ty joints_map_ msg i pt j joint_name st
        = Some {| commands := commands st ++ [default_command];
                  invalid := true;
                  log := log st ++ [AngleOutOfRangeError angle (name joint)] |}).
Proof.
  intros Hpts Hlen Hbad. split.
  - destruct (joint_command_callback_total ty joints_map_ msg Hlen) as [eff Hcall].
    destruct (joint_command_callback_cases _ _ _ _ Hcall)
      as [(_ & _ & Hall)|(Hpub & i & pt & j & n & e & Hi & Hj & Hoff & Hbefore & Hlog)].
    + exfalso. destruct Hbad as [(n & Hn & Hnone)
                                |(i & pt & j & n & joint & angle
                                  & Hi & Hj & Hreg & Hpos & Hv)].
      * destruct (points msg) as [|pt pts] eqn:Hp; [congruence|].
        apply list_elem_of_lookup in Hn as [j Hj].
        destruct (Hall 0%nat pt j n) as (joint & angle & Hreg & _);
          [reflexivity | exact Hj | congruence].
      * destruct (Hall i pt j n Hi Hj) as (joint' & angle' & Hreg' & Hpos' & Hv').
        congruence.
    + exists eff, e, i, pt, j, n. auto 10.
  - intros i pt j n joint angle st Hreg Hpos Hv.
    unfold joint_step. rewrite Hreg, Hpos, Hv. reflexivity.
Qed.

Lemma invalid_command_is_rejected_witness :
  exists eff,
    joint_command_callback UInt16 Sample.registry Sample.good_then_bad = Some eff
    /\ published eff = []
    /\ logged eff = [AngleOutOfRangeError 2.0%float "j3"].
Proof.
  destruct (invalid_command_is_rejected UInt16 Sample.registry
              Sample.good_then_bad) as [(eff & e & H) _].
  - discriminate.
  - exact positions_cover_names_good_then_bad.
  - right.
    exists 1%nat, (Sample.point 2.0%float), 0%nat, "j3", Sample.joint3, 2.0%float.
    repeat split; vm_compute; reflexivity.
  - destruct H as (i & pt & j & n & Hcall & Hpub & Hlog & _).
    exists eff. split; [exact Hcall|]. split; [exact Hpub|].
    assert (Heff : Some eff
                   = Some {| published := [];
                             logged := [AngleOutOfRangeError 2.0%float "j3"] |}).
    { rewrite <- Hcall. vm_compute. reflexivity. }
    injection Heff as ->. reflexivity.
Defined.

(** C2 as stated fails for a message without points: its joint names
    are never looked up, so an unregistered name raises no error and an
    empty command group is published. *)
Lemma unknown_joint_without_points_is_published :
  Sample.registry !! "ghost" = None
  /\ "ghost" ∈ joint_names Sample.ghost_without_points
  /\ (forall ty,
        joint_command_callback ty Sample.registry Sample.ghost_without_points
        = Some {| published := [[]]; logged := [] |}).
Proof.
  split; [vm_compute; reflexivity|].
  split; [left|]. intros ty. reflexivity.
Qed.

(** The unknown-joint line reports [joint_names[i]], the name at the index
    of the point, not the name that was looked up. *)
Lemma unknown_joint_reported_by_point_index :
  forall ty,
    joint_command_callback ty Sample.registry
      {| joint_names := ["j3"; "ghost"];
         points := [{| positions := [0%float; 0%float]; velocities := [] |}] |}
    = Some {| published := []; logged := [UnknownJointError "j3"] |}.
Proof. intros []; vm_compute; reflexivity. Qed.

(** C10. The callback reads [positions[j]] unchecked: a call is free of
    out-of-bounds reads when every point carries at least as many
    positions as there are joint names, whatever the length of the
    velocities, which are length-checked before they are read; a registered
    joint whose position is missing makes the step read out of bounds, and
    some message with too few positions does so. *)
Theorem positions_read_unchecked ty :
  (forall joints_map_ msg,
     positions_cover_names msg ->
     is_Some (joint_command_callback ty joints_map_ msg))
  /\ (forall joints_map_ msg i pt j joint_name joint st,
        joints_map_ !! joint_name = Some joint ->
        positions pt !! j = None ->
        joint_step ty joints_map_ msg i pt j joint_name st = None)
  /\ (forall joints_map_ msg i pt j joint_name joint angle st,
        joints_map_ !! joint_name = Some joint ->
        positions pt !! j = Some angle ->
        velocities pt !! j = None ->
        is_Some (joint_step ty joints_map_ msg i pt j joint_name st)
        /\ command_speed pt j = 0%float)
  /\ (~ positions_cover_names Sample.no_positions
      /\ joint_command_callback ty Sample.registry Sample.no_positions = None).
Proof.
  split; [intros reg msg; apply joint_command_callback_total|].
  split.
  { intros reg msg i pt j n joint st Hreg Hpos.
    unfold joint_step. rewrite Hreg, Hpos. reflexivity. }
  split.
  { intros reg msg i pt j n joint angle st Hreg Hpos Hvel. split.
    - unfold joint_step. rewrite Hreg, Hpos.
      destruct (angle_valid joint angle); eauto.
    - unfold command_speed. rewrite Hvel. reflexivity. }
  split.
  - intros H. specialize (H _ ltac:(left)). simpl in H. lia.
  - destruct ty; vm_compute; reflexivity.
Qed.

Lemma positions_read_unchecked_witness :
  is_Some (joint_command_callback Int32 Sample.registry Sample.good_then_bad)
  /\ joint_command_callback Int32 Sample.registry Sample.no_positions = None.
Proof.
  destruct (positions_read_unchecked Int32) as (Htotal & _ & _ & _ & Hnone).
  split; [|exact Hnone].
  apply Htotal. exact positions_cover_names_good_then_bad.
Defined.

(** ** The forward conversion *)

Lemma truncate_rational (d : float) (q : Q) :
  rational d = Some q -> (0 <= q)%Q -> truncate d = Some (Qfloor q).
Proof.
  unfold rational, truncate.
  destruct (Prim2SF d) as [s|s| |s m e]; try discriminate.
  - intros [= <-] _. reflexivity.
  - assert (Hpow : forall k, 0 <= k -> 0 < 2 ^ k)
      by (intros k Hk; apply Z.pow_pos_nonneg; lia).
    destruct (Z.leb_spec 0 e) as [He|He].
    + specialize (Hpow e He).
      destruct s; intros [= <-] Hq.
      * exfalso. unfold Qle in Hq. simpl in Hq. nia.
      * rewrite Qfloor_Z. reflexivity.
    + specialize (Hpow (- e) ltac:(lia)).
      destruct s; intros [= <-] Hq.
      * exfalso. unfold Qle in Hq. simpl in Hq. lia.
      * unfold Qfloor. rewrite Z2Pos.id by exact Hpow. reflexivity.
Qed.

Lemma Qfloor_bounds (q : Q) (lo hi : Z) :
  (inject_Z lo <= q)%Q -> (q < inject_Z hi)%Q -> lo <= Qfloor q < hi.
Proof.
  intros Hlo Hhi. split.
  - rewrite <- (Qfloor_Z lo). apply Qfloor_resp_le. exact Hlo.
  - rewrite Zlt_Qlt. eapply Qle_lt_trans; [apply Qfloor_le | exact Hhi].
Qed.

(** C4, as the code has it. For every joint and angle whose double value
    scale * (angle - offset_angle) + 1500 + 0.5 lies in [0, 2^32), the raw
    pulse width is that value rounded down, which is
    scale * (angle - offset_angle) + 1500 rounded to the nearest integer;
    a joint on channel 3 with offset_angle 0 and invert false, commanded to
    the valid angle 0.0, yields the command {channel 3, pulse width 1500}. *)
Theorem raw_pulse_width_rounds_nonnegative_value :
  (forall joint angle q,
     rational (scale * (angle - offset_angle joint) + 1500 + 0.5)%float = Some q ->
     (0 <= q)%Q -> (q < inject_Z (2 ^ 32))%Q ->
     raw_pulse_width joint angle = Qfloor q)
  /\ (forall ty joints_map_ joint_name joint,
        joints_map_ !! joint_name = Some joint ->
        channel joint = 3 -> offset_angle joint = 0%float ->
        invert joint = false -> angle_valid joint 0%float = true ->
        joint_command_callback ty joints_map_
          {| joint_names := [joint_name];
             points := [{| positions := [0%float]; velocities := [] |}] |}
        = Some {| published :=
                    [[{| cmd_channel := 3; pw := 1500; speed := 0%float |}]];
                  logged := [] |}).
Proof.
  split.
  - intros joint angle q Hq Hlo Hhi. unfold raw_pulse_width, cast_unsigned_int.
    rewrite (truncate_rational _ _ Hq Hlo).
    destruct (Qfloor_bounds q 0 (2 ^ 32) Hlo Hhi) as [H0 H32].
    replace ((- 2 ^ 63 <=? Qfloor q) && (Qfloor q <? 2 ^ 63)) with true
      by (symmetry; apply andb_true_intro; split;
          [apply Z.leb_le | apply Z.ltb_lt]; lia).
    unfold wrap_unsigned. apply Z.mod_small. lia.
  - intros ty reg n joint Hreg Hch Hoff Hinv Hv.
    assert (Hpw : command_pw ty joint 0%float = 1500).
    { unfold command_pw, raw_pulse_width. rewrite Hoff, Hinv.
      destruct ty; vm_compute; reflexivity. }
    unfold joint_command_callback. simpl. unfold joint_step. simpl.
    rewrite Hreg, Hv. simpl.
    unfold valid_command. rewrite Hpw, Hch. reflexivity.
Qed.

Lemma raw_pulse_width_rounds_nonnegative_value_witness :
  raw_pulse_width Sample.joint3 0x1.0624dd2f1a9fcp-11%float = 1500
  /\ joint_command_callback Int32 Sample.registry Sample.centre
     = Some {| published := [[Sample.centre_command]]; logged := [] |}.
Proof.
  destruct raw_pulse_width_rounds_nonnegative_value as [Hraw Hcentre].
  split.
  - rewrite (Hraw Sample.joint3 0x1.0624dd2f1a9fcp-11%float
               (6600668731595933 # 4398046511104)%Q).
    + reflexivity.
    + vm_compute. reflexivity.
    + unfold Qle. vm_compute. discriminate.
    + unfold Qlt. vm_compute. reflexivity.
  - apply (Hcentre Int32 Sample.registry "j3" Sample.joint3);
      vm_compute; reflexivity.
Defined.

(** C4 as stated fails where the value is negative: for the joint with
    offset 3 rad and the valid angle 0, scale * (0 - 3) + 1500 rounds to
    -410, and the raw pulse width is 2^32 - 409. *)
Lemma raw_pulse_width_of_negative_value :
  angle_valid Sample.joint_offset3 0%float = true
  /\ (round_half_up <$> rational (scale * (0 - 3.0) + 1500)%float) = Some (-410)
  /\ raw_pulse_width Sample.joint_offset3 0%float = 4294966887
  /\ raw_pulse_width Sample.joint_offset3 0%float <> -410.
Proof. repeat split; try (vm_compute; reflexivity). vm_compute. discriminate. Qed.

(** C9. The raw value is narrowed to [unsigned int] before it is clamped:
    for the non-inverted joint [joint_far] and the valid angle 0, the value
    scale * (angle - offset_angle) + 1500.5 is negative, the narrowing
    wraps it to a large positive number, and the published pulse width is
    2500, where clamping the value itself gives 500. *)
Theorem negative_raw_value_is_published_as_2500 :
  forall ty,
    exists q,
      invert Sample.joint_far = false
      /\ angle_valid Sample.joint_far 0%float = true
      /\ rational (scale * (0 - offset_angle Sample.joint_far) + 1500 + 0.5)%float
         = Some q
      /\ (q < 0)%Q
      /\ clamp_pulse_width (Qceiling q) = 500
      /\ 2 ^ 30 <= raw_pulse_width Sample.joint_far 0%float
      /\ clamp_pulse_width
           (to_int (convert ty (raw_pulse_width Sample.joint_far 0%float)))
         = 2500
      /\ joint_command_callback ty Sample.registry
           {| joint_names := ["far"]; points := [Sample.point 0%float] |}
         = Some {| published :=
                     [[{| cmd_channel := 5; pw := 2500; speed := 0%float |}]];
                   logged := [] |}.
Proof.
  intros ty. eexists.
  split; [reflexivity|]. split; [vm_compute; reflexivity|].
  split; [vm_compute; reflexivity|].
  split; [unfold Qlt; vm_compute; reflexivity|].
  split; [vm_compute; reflexivity|].
  split; [vm_compute; discriminate|].
  split; destruct ty; vm_compute; reflexivity.
Qed.

(** With the offset of 3 rad the wrapped value reaches the clamp as a large
    number only through a 16-bit unsigned field; read back from a signed or
    a wider field it is negative again and clamps to 500. *)
Lemma wrapped_value_by_field_type :
  command_pw UInt16 Sample.joint_offset3 0%float = 2500
  /\ forall ty, ty <> UInt16 ->
       command_pw ty Sample.joint_offset3 0%float = 500.
Proof.
  split; [vm_compute; reflexivity|].
  intros [] H; try congruence; vm_compute; reflexivity.
Qed.

(** ** Rounding of the double operations *)

(** *** Powers of two *)

Lemma pow2_pos e : (0 < pow2 e)%Q.
Proof. apply Qpower_0_lt. reflexivity. Qed.

Lemma pow2_add a b : (pow2 (a + b) == pow2 a * pow2 b)%Q.
Proof. apply Qpower_plus. discriminate. Qed.

Lemma pow2_le a b : a <= b -> (pow2 a <= pow2 b)%Q.
Proof. intros H. apply Qpower_le_compat_l; [exact H | discriminate]. Qed.

Lemma pow2_lt_inv a b : (pow2 a < pow2 b)%Q -> a < b.
Proof. intros H. apply (Qpower_lt_compat_l_inv 2); [exact H | reflexivity]. Qed.

Lemma pow2_Z k : 0 <= k -> (pow2 k == inject_Z (2 ^ k))%Q.
Proof. intros H. unfold pow2. rewrite Zpower_Qpower by exact H. reflexivity. Qed.

Lemma pow2_succ e : (pow2 (e + 1) == 2 * pow2 e)%Q.
Proof. rewrite pow2_add. change (pow2 1) with 2%Q. ring. Qed.

Lemma pow2_pred e : (pow2 (e - 1) == pow2 e / 2)%Q.
Proof.
  replace e with ((e - 1) + 1) at 2 by lia. rewrite pow2_succ. field.
Qed.

(** *** Right shifts keep the value *)

Lemma inject_Z_xO p : (inject_Z (Z.pos p~0) == 2 * inject_Z (Z.pos p))%Q.
Proof. rewrite Pos2Z.inj_xO, inject_Z_mult. reflexivity. Qed.

Lemma inject_Z_xI p : (inject_Z (Z.pos p~1) == 2 * inject_Z (Z.pos p) + 1)%Q.
Proof. rewrite Pos2Z.inj_xI, inject_Z_plus, inject_Z_mult. reflexivity. Qed.

(** One right shift halves the value a record stands for. *)
Lemma shr_1_represents mrs x :
  0 <= shr_m mrs -> represents mrs x ->
  represents (shr_1 mrs) (x * (1 # 2)) /\ 0 <= shr_m (shr_1 mrs).
Proof.
  destruct mrs as [m r s]. unfold represents. simpl shr_m. simpl shr_r. simpl shr_s.
  intros Hm.
  destruct m as [|p|p]; [| |lia].
  - destruct r, s; simpl; intros H; (split; [|lia]);
      change (inject_Z 0) with 0%Q in *; try lra.
  - destruct p as [p|p|]; destruct r, s; simpl; intros H; (split; [|lia]);
      try rewrite inject_Z_xI in H; try rewrite inject_Z_xO in H;
      change (inject_Z 1) with 1%Q in *; change (inject_Z 0) with 0%Q in *;
      try lra.
Qed.

Lemma iter_shr_1_represents p mrs x :
  0 <= shr_m mrs -> represents mrs x ->
  represents (SpecFloat.iter_pos shr_1 p mrs) (x * pow2 (- Z.pos p))
  /\ 0 <= shr_m (SpecFloat.iter_pos shr_1 p mrs).
Proof.
  revert mrs x. induction p as [p IH|p IH|]; intros mrs x Hm Hx; simpl SpecFloat.iter_pos.
  - destruct (shr_1_represents _ _ Hm Hx) as [H1 Hm1].
    destruct (IH _ _ Hm1 H1) as [H2 Hm2].
    destruct (IH _ _ Hm2 H2) as [H3 Hm3].
    split; [|exact Hm3].
    assert (E : (x * pow2 (- Z.pos p~1)
                 == x * (1 # 2) * pow2 (- Z.pos p) * pow2 (- Z.pos p))%Q).
    { replace (- Z.pos p~1) with (-1 + (- Z.pos p + - Z.pos p)) by lia.
      rewrite !pow2_add. change (pow2 (-1)) with (1 # 2)%Q. ring. }
    revert H3. unfold represents.
    destruct (shr_r _), (shr_s _); rewrite E; auto.
  - destruct (IH _ _ Hm Hx) as [H2 Hm2].
    destruct (IH _ _ Hm2 H2) as [H3 Hm3].
    split; [|exact Hm3].
    assert (E : (x * pow2 (- Z.pos p~0)
                 == x * pow2 (- Z.pos p) * pow2 (- Z.pos p))%Q).
    { replace (- Z.pos p~0) with (- Z.pos p + - Z.pos p) by lia.
      rewrite !pow2_add. ring. }
    revert H3. unfold represents.
    destruct (shr_r _), (shr_s _); rewrite E; auto.
  - change (pow2 (- 1)) with (1 # 2)%Q. apply shr_1_represents; assumption.
Qed.

Lemma represents_floor mrs x :
  represents mrs x ->
  (inject_Z (shr_m mrs) <= x /\ x < inject_Z (shr_m mrs) + 1)%Q.
Proof. unfold represents. destruct (shr_r mrs), (shr_s mrs); lra. Qed.

Lemma represents_proper mrs x y :
  (x == y)%Q -> represents mrs x -> represents mrs y.
Proof.
  intros E. unfold represents.
  destruct (shr_r mrs), (shr_s mrs); rewrite E; auto.
Qed.

Lemma represents_exact m : represents (shr_record_of_loc m loc_Exact) (inject_Z m).
Proof. unfold represents. simpl. reflexivity. Qed.

(** A right shift of an exact record keeps the value. *)
Lemma shr_exact m e n mrs e' :
  0 <= m ->
  shr (shr_record_of_loc m loc_Exact) e n = (mrs, e') ->
  represents mrs (inject_Z m * pow2 (e - e'))
  /\ 0 <= shr_m mrs
  /\ ((n <= 0 /\ e' = e /\ shr_m mrs = m) \/ (0 < n /\ e' = e + n)).
Proof.
  intros Hm. unfold shr. destruct n as [|p|p]; intros [= <- <-].
  - rewrite Z.sub_diag. change (pow2 0) with 1%Q.
    split; [apply (represents_proper _ (inject_Z m)); [ring | apply represents_exact]|].
    simpl. split; [exact Hm|]. left. lia.
  - destruct (iter_shr_1_represents p (shr_record_of_loc m loc_Exact) (inject_Z m)
                Hm (represents_exact m)) as [H1 H2].
    replace (e - (e + Z.pos p)) with (- Z.pos p) by lia.
    split; [exact H1|]. split; [exact H2|]. right. lia.
  - rewrite Z.sub_diag. change (pow2 0) with 1%Q.
    split; [apply (represents_proper _ (inject_Z m)); [ring | apply represents_exact]|].
    simpl. split; [exact Hm|]. left. lia.
Qed.

(** *** Rounding to nearest *)

(** The rounded mantissa is within one half of the value. *)
Lemma round_nearest_even_represents mrs x :
  0 <= shr_m mrs -> represents mrs x ->
  (Qabs (inject_Z (round_nearest_even (shr_m mrs) (loc_of_shr_record mrs)) - x)
   <= 1 # 2)%Q
  /\ shr_m mrs <= round_nearest_even (shr_m mrs) (loc_of_shr_record mrs).
Proof.
  destruct mrs as [m r s]. unfold represents.
  cbn [shr_m shr_r shr_s loc_of_shr_record round_nearest_even].
  intros Hm H.
  destruct r, s; cbn [round_nearest_even];
    [| destruct (Z.even m) | |];
    try rewrite inject_Z_plus; change (inject_Z 1) with 1%Q;
    (split; [apply Qabs_Qle_condition; lra | lia]).
Qed.

(** *** Digits and exponents *)

Lemma digits2_pos_bounds p :
  2 ^ (Z.pos (digits2_pos p) - 1) <= Z.pos p < 2 ^ Z.pos (digits2_pos p).
Proof.
  induction p as [p IH|p IH|]; simpl digits2_pos.
  - rewrite Pos2Z.inj_succ.
    replace (Z.succ (Z.pos (digits2_pos p)) - 1)
      with (Z.succ (Z.pos (digits2_pos p) - 1)) by lia.
    rewrite !Z.pow_succ_r by lia. lia.
  - rewrite Pos2Z.inj_succ.
    replace (Z.succ (Z.pos (digits2_pos p)) - 1)
      with (Z.succ (Z.pos (digits2_pos p) - 1)) by lia.
    rewrite !Z.pow_succ_r by lia. lia.
  - simpl. lia.
Qed.

Lemma pow2_digits p : (pow2 (Z.pos (digits2_pos p) - 1) <= inject_Z (Z.pos p))%Q.
Proof.
  rewrite pow2_Z by lia. rewrite <- Zle_Qle. apply digits2_pos_bounds.
Qed.

Lemma small_mantissa q k :
  (inject_Z (Z.pos q) * pow2 k < 1)%Q -> Z.pos (digits2_pos q) - 1 + k < 0.
Proof.
  intros H. apply pow2_lt_inv. change (pow2 0) with 1%Q.
  eapply Qle_lt_trans; [|exact H].
  rewrite pow2_add. apply Qmult_le_compat_r; [apply pow2_digits|].
  apply Qlt_le_weak, pow2_pos.
Qed.

Lemma fexp_eq e : fexp prec emax e = Z.max (e - 53) emin64.
Proof. reflexivity. Qed.

(** *** The rounding of a magnitude *)

(** [binary_round_aux] on the exact magnitude mx * 2^ex: a finite result
    is within 3/2 units of its last place, a zero comes from a magnitude of
    at most 3/2 of 2^-1074, an overflow from one of at least 2^971. *)
Lemma binary_round_aux_magnitude s mx ex :
  let z := (inject_Z (Z.pos mx) * pow2 ex)%Q in
  match binary_round_aux prec emax s (Z.pos mx) ex loc_Exact with
  | S754_finite s' m e => s' = s /\ (Qabs (inject_Z (Z.pos m) * pow2 e - z) <= (3 # 2) * pow2 e)%Q
  | S754_zero s' => s' = s /\ (z <= (3 # 2) * pow2 emin64)%Q
  | S754_infinity s' => s' = s /\ (pow2 971 <= z)%Q
  | S754_nan => False
  end.
Proof.
  intros z. unfold binary_round_aux, shr_fexp.
  set (n1 := fexp prec emax (Zdigits2 (Z.pos mx) + ex) - ex).
  destruct (shr (shr_record_of_loc (Z.pos mx) loc_Exact) ex n1) as [R1 e1] eqn:E1.
  destruct (shr_exact (Z.pos mx) ex n1 R1 e1 ltac:(lia) E1) as (Hr1 & Hm1 & Hn1).
  destruct (round_nearest_even_represents _ _ Hm1 Hr1) as [Hmr Hle].
  set (mr := round_nearest_even (shr_m R1) (loc_of_shr_record R1)) in *.
  set (n2 := fexp prec emax (Zdigits2 mr + e1) - e1).
  destruct (shr (shr_record_of_loc mr loc_Exact) e1 n2) as [R2 e2] eqn:E2.
  assert (Hmr0 : 0 <= mr) by lia.
  destruct (shr_exact mr e1 n2 R2 e2 Hmr0 E2) as (Hr2 & Hm2 & Hn2).
  apply represents_floor in Hr2.
  set (m2 := shr_m R2) in *.
  set (A := pow2 e1). set (B := pow2 e2).
  assert (HA : (0 < A)%Q) by apply pow2_pos.
  assert (HB : (0 < B)%Q) by apply pow2_pos.
  assert (HAB : (A <= B)%Q) by (apply pow2_le; lia).
  (* U = mr * 2^e1 is the rounded value *)
  set (U := (inject_Z mr * A)%Q).
  assert (HUz : (Qabs (U - z) <= A * (1 # 2))%Q).
  { assert (Ez : (z == inject_Z (Z.pos mx) * pow2 (ex - e1) * A)%Q).
    { unfold z, A. rewrite <- Qmult_assoc, <- pow2_add.
      replace (ex - e1 + e1) with ex by lia. reflexivity. }
    assert (EU : (U - z == (inject_Z mr - inject_Z (Z.pos mx) * pow2 (ex - e1)) * A)%Q).
    { rewrite Ez. unfold U. ring. }
    rewrite EU, Qabs_Qmult, (Qabs_pos A) by lra.
    rewrite (Qmult_comm A). apply Qmult_le_compat_r; [exact Hmr | lra]. }
  apply Qabs_Qle_condition in HUz.
  assert (HU2 : (inject_Z m2 * B <= U /\ U < inject_Z m2 * B + B)%Q).
  { assert (EU : (U == inject_Z mr * pow2 (e1 - e2) * B)%Q).
    { unfold U, A, B. rewrite <- Qmult_assoc, <- pow2_add.
      replace (e1 - e2 + e2) with e1 by lia. reflexivity. }
    rewrite EU. destruct Hr2 as [Hlo Hhi]. split.
    - apply Qmult_le_compat_r; [exact Hlo | lra].
    - assert (E3 : (inject_Z m2 * B + B == (inject_Z m2 + 1) * B)%Q) by ring.
      rewrite E3. apply Qmult_lt_compat_r; [exact HB | exact Hhi]. }
  destruct m2 as [|m|m] eqn:Em2; [| |lia].
  - (* the mantissa vanished *)
    split; [reflexivity|].
    change (inject_Z 0) with 0%Q in HU2.
    assert (He2 : e2 = emin64 \/ (e1 = emin64 /\ e2 = e1 /\ mr = 0)).
    { destruct Hr2 as [_ Hx2]. change (inject_Z 0 + 1)%Q with 1%Q in Hx2.
      destruct Hn2 as [(_ & -> & Hm2r)|(Hn2 & He2)].
      - right. assert (Hmrz : mr = 0) by lia.
        destruct Hn1 as [(_ & _ & Hm1x)|(Hn1 & He1)]; [lia|].
        apply represents_floor in Hr1. destruct Hr1 as [_ Hx1].
        replace (shr_m R1) with 0 in Hx1 by lia.
        change (inject_Z 0 + 1)%Q with 1%Q in Hx1.
        apply small_mantissa in Hx1.
        unfold n1 in He1. rewrite fexp_eq in He1. simpl Zdigits2 in He1.
        repeat split; try assumption; try reflexivity. unfold emin64 in *. lia.
      - left. unfold n2 in He2. rewrite fexp_eq in He2.
        destruct mr as [|q|q] eqn:Eq; [| |lia].
        + simpl Zdigits2 in He2. unfold n2 in Hn2. rewrite fexp_eq in Hn2.
          simpl Zdigits2 in Hn2. unfold emin64 in *. lia.
        + apply small_mantissa in Hx2. simpl Zdigits2 in He2.
          unfold emin64 in *. lia. }
    destruct He2 as [->|(-> & -> & Hmrz)].
    + fold B. lra.
    + unfold U in *. rewrite Hmrz in *. change (inject_Z 0) with 0%Q in *.
      fold A. lra.
  - destruct (Z.leb_spec e2 (emax - prec)) as [He|He].
    + split; [reflexivity|]. fold B. apply Qabs_Qle_condition. lra.
    + split; [reflexivity|].
      assert (H1 : (1 <= inject_Z (Z.pos m))%Q) by (rewrite <- (Zle_Qle 1); lia).
      assert (HB2 : (pow2 972 <= B)%Q) by (apply pow2_le; unfold emax, prec in He; lia).
      change (pow2 972) with (2 * pow2 971)%Q in HB2.
      assert (HmB : (B <= inject_Z (Z.pos m) * B)%Q).
      { rewrite <- (Qmult_1_l B) at 1. apply Qmult_le_compat_r; lra. }
      lra.
Qed.

(** *** Sums, differences and products *)

Lemma ulp_bound_nonneg e : (0 <= (3 # 2) * pow2 e)%Q.
Proof. apply Qmult_le_0_compat; [discriminate | apply Qlt_le_weak, pow2_pos]. Qed.

Lemma rounds_to_proper z z' r : (z == z')%Q -> rounds_to z r -> rounds_to z' r.
Proof. intros E. unfold rounds_to. destruct r; try rewrite E; auto. Qed.

Lemma Qabs_sign (s : bool) (x : Q) :
  (Qabs ((if s then -1 else 1) * x) == Qabs x)%Q.
Proof.
  destruct s.
  - assert (E : (-1 * x == - x)%Q) by ring. rewrite E. apply Qabs_opp.
  - assert (E : (1 * x == x)%Q) by ring. rewrite E. reflexivity.
Qed.

Lemma F2Q_abs s m e : (Qabs (F2Q s m e) == inject_Z (Z.pos m) * pow2 e)%Q.
Proof.
  unfold F2Q. rewrite Qabs_sign. apply Qabs_pos.
  apply Qmult_le_0_compat; [rewrite <- (Zle_Qle 0); lia|].
  apply Qlt_le_weak, pow2_pos.
Qed.

Lemma binary_round_aux_rounds s mx ex :
  rounds_to (F2Q s mx ex) (binary_round_aux prec emax s (Z.pos mx) ex loc_Exact).
Proof.
  pose proof (binary_round_aux_magnitude s mx ex) as H. simpl in H.
  destruct (binary_round_aux prec emax s (Z.pos mx) ex loc_Exact)
    as [s'|s'| |s' m e]; unfold rounds_to.
  - destruct H as [_ H]. rewrite F2Q_abs. exact H.
  - destruct H as [_ H]. rewrite F2Q_abs. exact H.
  - exact H.
  - destruct H as [-> H].
    assert (E : (F2Q s m e - F2Q s mx ex
                 == (if s then -1 else 1)
                    * (inject_Z (Z.pos m) * pow2 e - inject_Z (Z.pos mx) * pow2 ex))%Q)
      by (unfold F2Q; ring).
    rewrite E, Qabs_sign. exact H.
Qed.

Lemma iter_xO_value mx d : Z.pos (Pos.iter xO mx d) = Z.pos mx * 2 ^ Z.pos d.
Proof.
  pose proof (Zpower.shift_pos_correct d mx) as H.
  unfold Zpower.shift_pos in H. rewrite H.
  rewrite Zpower.Zpower_pos_nat, Zpower.Zpower_nat_Z, positive_nat_Z. lia.
Qed.

Lemma shl_align_value mx ex ex' :
  (inject_Z (Z.pos (fst (shl_align mx ex ex'))) * pow2 (snd (shl_align mx ex ex'))
   == inject_Z (Z.pos mx) * pow2 ex)%Q
  /\ (ex' <= ex -> snd (shl_align mx ex ex') = ex').
Proof.
  unfold shl_align. destruct (ex' - ex) as [|d|d] eqn:E; simpl fst; simpl snd.
  - split; [reflexivity | lia].
  - split; [reflexivity | lia].
  - split; [|reflexivity].
    rewrite iter_xO_value, inject_Z_mult, <- pow2_Z by lia.
    rewrite <- Qmult_assoc, <- pow2_add.
    replace (Z.pos d + ex') with ex by lia. reflexivity.
Qed.

Lemma binary_round_rounds s mx ex :
  rounds_to (F2Q s mx ex) (binary_round prec emax s mx ex).
Proof.
  unfold binary_round.
  pose proof (shl_align_value mx ex
                (fexp prec emax (Z.pos (digits2_pos mx) + ex))) as [Hv _].
  destruct (shl_align mx ex (fexp prec emax (Z.pos (digits2_pos mx) + ex)))
    as [mz ez]. simpl in Hv.
  apply (rounds_to_proper (F2Q s mz ez)); [|apply binary_round_aux_rounds].
  unfold F2Q. rewrite Hv. reflexivity.
Qed.

Lemma binary_normalize_rounds m e szero :
  rounds_to (inject_Z m * pow2 e) (binary_normalize prec emax m e szero).
Proof.
  destruct m as [|p|p]; cbn [binary_normalize].
  - unfold rounds_to.
    assert (E : (inject_Z 0 * pow2 e == 0)%Q) by (change (inject_Z 0) with 0%Q; ring).
    rewrite E. change (Qabs 0) with 0%Q. apply ulp_bound_nonneg.
  - apply (rounds_to_proper (F2Q false p e)); [unfold F2Q; ring|].
    apply binary_round_rounds.
  - apply (rounds_to_proper (F2Q true p e)); [|apply binary_round_rounds].
    unfold F2Q. change (Z.neg p) with (- Z.pos p). rewrite inject_Z_opp. ring.
Qed.

Lemma rounds_to_exact x q : SF2Q x = Some q -> rounds_to q x.
Proof.
  destruct x as [s|s| |s m e]; cbn [SF2Q]; try discriminate; intros [= <-];
    unfold rounds_to.
  - change (Qabs 0) with 0%Q. apply ulp_bound_nonneg.
  - assert (E : (F2Q s m e - F2Q s m e == 0)%Q) by ring.
    rewrite E. change (Qabs 0) with 0%Q. apply ulp_bound_nonneg.
Qed.

Lemma cond_Zopp_value s m e :
  (inject_Z (cond_Zopp s (Z.pos m)) * pow2 e == F2Q s m e)%Q.
Proof.
  unfold F2Q, cond_Zopp. destruct s; [rewrite inject_Z_opp|]; ring.
Qed.

Lemma aligned_value s mx ex ez :
  ez <= ex ->
  (inject_Z (cond_Zopp s (Z.pos (fst (shl_align mx ex ez)))) * pow2 ez
   == F2Q s mx ex)%Q.
Proof.
  intros H. destruct (shl_align_value mx ex ez) as [Hv He].
  rewrite (He H) in Hv. rewrite cond_Zopp_value. unfold F2Q. rewrite Hv.
  reflexivity.
Qed.

(** The product, sum and difference of two finite floats are roundings
    of the exact product, sum and difference. *)
Lemma SFmul_rounds x y qx qy :
  SF2Q x = Some qx -> SF2Q y = Some qy -> rounds_to (qx * qy) (SF64mul x y).
Proof.
  destruct x as [sx|sx| |sx mx ex]; cbn [SF2Q]; try discriminate;
    destruct y as [sy|sy| |sy my ey]; cbn [SF2Q]; try discriminate;
    intros [= <-] [= <-].
  - apply (rounds_to_proper 0); [ring|]. apply (rounds_to_exact (S754_zero _)). reflexivity.
  - apply (rounds_to_proper 0); [ring|]. apply (rounds_to_exact (S754_zero _)). reflexivity.
  - apply (rounds_to_proper 0); [ring|]. apply (rounds_to_exact (S754_zero _)). reflexivity.
  - apply (rounds_to_proper (F2Q (xorb sx sy) (mx * my) (ex + ey)));
      [|apply binary_round_aux_rounds].
    unfold F2Q. rewrite Pos2Z.inj_mul, inject_Z_mult, pow2_add.
    destruct sx, sy; simpl; ring.
Qed.

Lemma SFadd_rounds x y qx qy :
  SF2Q x = Some qx -> SF2Q y = Some qy -> rounds_to (qx + qy) (SF64add x y).
Proof.
  destruct x as [sx|sx| |sx mx ex]; cbn [SF2Q]; try discriminate;
    destruct y as [sy|sy| |sy my ey]; cbn [SF2Q]; try discriminate;
    intros [= <-] [= <-].
  - apply (rounds_to_proper 0); [ring|]. destruct sx, sy;
      apply (rounds_to_exact (S754_zero _)); reflexivity.
  - apply (rounds_to_proper (F2Q sy my ey)); [ring|].
    apply (rounds_to_exact (S754_finite sy my ey)). reflexivity.
  - apply (rounds_to_proper (F2Q sx mx ex)); [ring|].
    apply (rounds_to_exact (S754_finite sx mx ex)). reflexivity.
  - eapply rounds_to_proper; [|apply binary_normalize_rounds].
    rewrite inject_Z_plus, Qmult_plus_distr_l.
    rewrite !aligned_value by lia. reflexivity.
Qed.

Lemma SFsub_rounds x y qx qy :
  SF2Q x = Some qx -> SF2Q y = Some qy -> rounds_to (qx - qy) (SF64sub x y).
Proof.
  destruct x as [sx|sx| |sx mx ex]; cbn [SF2Q]; try discriminate;
    destruct y as [sy|sy| |sy my ey]; cbn [SF2Q]; try discriminate;
    intros [= <-] [= <-].
  - apply (rounds_to_proper 0); [ring|]. destruct sx, sy;
      apply (rounds_to_exact (S754_zero _)); reflexivity.
  - apply (rounds_to_proper (F2Q (negb sy) my ey)).
    + unfold F2Q. destruct sy; simpl; ring.
    + apply (rounds_to_exact (S754_finite (negb sy) my ey)). reflexivity.
  - apply (rounds_to_proper (F2Q sx mx ex)); [ring|].
    apply (rounds_to_exact (S754_finite sx mx ex)). reflexivity.
  - eapply rounds_to_proper; [|apply binary_normalize_rounds].
    assert (Ez : forall a b : Z, (inject_Z (a - b) == inject_Z a - inject_Z b)%Q)
      by (intros; unfold Z.sub; rewrite inject_Z_plus, inject_Z_opp; ring).
    assert (E : forall a b c : Q, ((a - b) * c == a * c - b * c)%Q) by (intros; ring).
    rewrite Ez, E, !aligned_value by lia. reflexivity.
Qed.

(** Operands of a finite sum, difference or product are finite. *)
Lemma SFadd_finite x y :
  is_Some (SF2Q (SF64add x y)) -> is_Some (SF2Q x) /\ is_Some (SF2Q y).
Proof.
  destruct x as [sx|sx| |sx mx ex], y as [sy|sy| |sy my ey]; simpl;
    try (destruct sx, sy; simpl); intros [q H]; try discriminate; eauto.
Qed.

Lemma SFsub_finite x y :
  is_Some (SF2Q (SF64sub x y)) -> is_Some (SF2Q x) /\ is_Some (SF2Q y).
Proof.
  destruct x as [sx|sx| |sx mx ex], y as [sy|sy| |sy my ey]; simpl;
    try (destruct sx, sy; simpl); intros [q H]; try discriminate; eauto.
Qed.

Lemma SFmul_finite x y :
  is_Some (SF2Q (SF64mul x y)) -> is_Some (SF2Q x) /\ is_Some (SF2Q y).
Proof.
  destruct x as [sx|sx| |sx mx ex], y as [sy|sy| |sy my ey]; simpl;
    intros [q H]; try discriminate; eauto.
Qed.

(** A double below 2^k in size has an exponent of at most k - 53. *)
Lemma canonical_exponent s m e k :
  valid_binary (S754_finite s m e) = true ->
  (Qabs (F2Q s m e) < pow2 k)%Q -> -1021 <= k -> e <= k - 53.
Proof.
  unfold valid_binary, SpecFloat.valid_binary, bounded, canonical_mantissa.
  rewrite fexp_eq.
  intros Hv Hlt Hk. apply andb_prop in Hv as [Hc _]. apply Z.eqb_eq in Hc.
  rewrite F2Q_abs in Hlt.
  assert (Hd : Z.pos (digits2_pos m) - 1 + e < k).
  { apply pow2_lt_inv. eapply Qle_lt_trans; [|exact Hlt].
    rewrite pow2_add. apply Qmult_le_compat_r; [apply pow2_digits|].
    apply Qlt_le_weak, pow2_pos. }
  unfold emin64 in Hc. lia.
Qed.

(** ** The round trip angle -> pulse width -> angle *)

(** *** Doubles and their exact values *)

Lemma rational_scale : rational scale = Some scale_value.
Proof. vm_compute. reflexivity. Qed.

Lemma pow2_opp e : (pow2 e == / pow2 (- e))%Q.
Proof.
  unfold pow2. rewrite <- Qpower_opp, Z.opp_involutive. reflexivity.
Qed.

(** [rational] and [SF2Q] give the same value. *)
Lemma rational_SF2Q (d : float) :
  match rational d, SF2Q (Prim2SF d) with
  | Some q, Some q' => (q == q')%Q
  | None, None => True
  | _, _ => False
  end.
Proof.
  unfold rational, SF2Q. destruct (Prim2SF d) as [s|s| |s m e]; try exact I.
  - reflexivity.
  - unfold F2Q. destruct (Z.leb_spec 0 e) as [He|He].
    + assert (E : (inject_Z (Z.pos m * 2 ^ e)
                   == inject_Z (Z.pos m) * pow2 e)%Q)
        by (rewrite inject_Z_mult, pow2_Z by exact He; reflexivity).
      destruct s; rewrite E; ring.
    + assert (Hp : 0 < 2 ^ (- e)) by (apply Z.pow_pos_nonneg; lia).
      assert (E : (Z.pos m # Z.to_pos (2 ^ (- e))
                   == inject_Z (Z.pos m) * pow2 e)%Q).
      { rewrite Qmake_Qdiv, Z2Pos.id by exact Hp.
        rewrite (pow2_opp e), <- pow2_Z by lia. reflexivity. }
      destruct s; rewrite E; ring.
Qed.

Lemma rational_value (d : float) (q : Q) :
  rational d = Some q ->
  exists q', SF2Q (Prim2SF d) = Some q' /\ (q' == q)%Q.
Proof.
  intros H. pose proof (rational_SF2Q d) as R. rewrite H in R.
  destruct (SF2Q (Prim2SF d)) as [q'|]; [|contradiction].
  exists q'. split; [reflexivity | symmetry; exact R].
Qed.

Lemma value_rational (d : float) (q' : Q) :
  SF2Q (Prim2SF d) = Some q' ->
  exists q, rational d = Some q /\ (q == q')%Q.
Proof.
  intros H. pose proof (rational_SF2Q d) as R. rewrite H in R.
  destruct (rational d) as [q|]; [|contradiction].
  exists q. split; [reflexivity | exact R].
Qed.

Lemma add_rounds (x y : float) (qx qy : Q) :
  SF2Q (Prim2SF x) = Some qx -> SF2Q (Prim2SF y) = Some qy ->
  rounds_to (qx + qy) (Prim2SF (x + y)).
Proof. intros Hx Hy. rewrite add_spec. apply SFadd_rounds; assumption. Qed.

Lemma sub_rounds (x y : float) (qx qy : Q) :
  SF2Q (Prim2SF x) = Some qx -> SF2Q (Prim2SF y) = Some qy ->
  rounds_to (qx - qy) (Prim2SF (x - y)).
Proof. intros Hx Hy. rewrite sub_spec. apply SFsub_rounds; assumption. Qed.

Lemma mul_rounds (x y : float) (qx qy : Q) :
  SF2Q (Prim2SF x) = Some qx -> SF2Q (Prim2SF y) = Some qy ->
  rounds_to (qx * qy) (Prim2SF (x * y)).
Proof. intros Hx Hy. rewrite mul_spec. apply SFmul_rounds; assumption. Qed.

Lemma add_finite (x y : float) :
  is_Some (SF2Q (Prim2SF (x + y))) ->
  is_Some (SF2Q (Prim2SF x)) /\ is_Some (SF2Q (Prim2SF y)).
Proof. rewrite add_spec. apply SFadd_finite. Qed.

Lemma sub_finite (x y : float) :
  is_Some (SF2Q (Prim2SF (x - y))) ->
  is_Some (SF2Q (Prim2SF x)) /\ is_Some (SF2Q (Prim2SF y)).
Proof. rewrite sub_spec. apply SFsub_finite. Qed.

Lemma mul_finite (x y : float) :
  is_Some (SF2Q (Prim2SF (x * y))) ->
  is_Some (SF2Q (Prim2SF x)) /\ is_Some (SF2Q (Prim2SF y)).
Proof. rewrite mul_spec. apply SFmul_finite. Qed.

Lemma ulp_le (a b : Z) : a <= b -> ((3 # 2) * pow2 a <= (3 # 2) * pow2 b)%Q.
Proof. intros H. pose proof (pow2_le a b H). lra. Qed.

(** The error of an operation whose result is below 2^k in size. *)
Lemma rounds_to_error (z : Q) (d : float) (q : Q) (k : Z) :
  rounds_to z (Prim2SF d) -> SF2Q (Prim2SF d) = Some q ->
  (Qabs q < pow2 k)%Q -> -1021 <= k ->
  (Qabs (q - z) <= (3 # 2) * pow2 (k - 53))%Q.
Proof.
  intros Hr Hq Hlt Hk. pose proof (Prim2SF_valid d) as Hv.
  destruct (Prim2SF d) as [s|s| |s m e]; cbn [SF2Q] in Hq; try discriminate.
  - injection Hq as <-. cbn [rounds_to] in Hr.
    assert (E : (0 - z == - z)%Q) by ring. rewrite E, Qabs_opp.
    eapply Qle_trans; [exact Hr|]. apply ulp_le. unfold emin64. lia.
  - injection Hq as <-. cbn [rounds_to] in Hr.
    pose proof (canonical_exponent s m e k Hv Hlt Hk) as He.
    eapply Qle_trans; [exact Hr|]. apply ulp_le. lia.
Qed.

Lemma mantissa_normal s m e :
  valid_binary (S754_finite s m e) = true -> emin64 < e -> 2 ^ 52 <= Z.pos m.
Proof.
  unfold valid_binary, SpecFloat.valid_binary, bounded, canonical_mantissa.
  rewrite fexp_eq. intros Hv He.
  apply andb_prop in Hv as [Hc _]. apply Z.eqb_eq in Hc.
  assert (Hd : Z.pos (digits2_pos m) = 53) by lia.
  pose proof (digits2_pos_bounds m) as [Hlo _]. rewrite Hd in Hlo. exact Hlo.
Qed.

(** The result of an operation whose exact value is below 2^k in size is
    finite, with an error of at most 3/2 of 2^(k - 52). *)
Lemma rounds_to_finite (z : Q) (d : float) (k : Z) :
  rounds_to z (Prim2SF d) -> (Qabs z < pow2 k)%Q -> -1021 <= k <= 971 ->
  exists q, SF2Q (Prim2SF d) = Some q
            /\ (Qabs (q - z) <= (3 # 2) * pow2 (k - 52))%Q.
Proof.
  intros Hr Hlt Hk. pose proof (Prim2SF_valid d) as Hv.
  destruct (Prim2SF d) as [s|s| |s m e]; cbn [SF2Q rounds_to] in *.
  - exists 0%Q. split; [reflexivity|].
    assert (E : (0 - z == - z)%Q) by ring. rewrite E, Qabs_opp.
    eapply Qle_trans; [exact Hr|]. apply ulp_le. unfold emin64. lia.
  - exfalso. pose proof (pow2_le k 971 ltac:(lia)). lra.
  - contradiction.
  - exists (F2Q s m e). split; [reflexivity|].
    eapply Qle_trans; [exact Hr|]. apply ulp_le.
    destruct (Z_le_gt_dec e (k - 52)) as [He|He]; [exact He|exfalso].
    assert (Hm : 2 ^ 52 <= Z.pos m)
      by (apply (mantissa_normal s m e Hv); unfold emin64; lia).
    rewrite Zle_Qle in Hm.
    pose proof (F2Q_abs s m e) as Habs.
    pose proof (Qabs_triangle (F2Q s m e - z) z) as Htri.
    assert (E : (F2Q s m e - z + z == F2Q s m e)%Q) by ring.
    rewrite E, Habs in Htri.
    pose proof (pow2_le (k - 51) e ltac:(lia)) as Hu.
    pose proof (pow2_pos (k - 51)) as Hv0.
    assert (Ek : (pow2 k == pow2 (k - 51) * inject_Z (2 ^ 51))%Q).
    { rewrite <- pow2_Z, <- pow2_add by lia. replace (k - 51 + 51) with k by lia.
      reflexivity. }
    rewrite Ek in Hlt.
    assert (Hmu : (inject_Z (2 ^ 52) * pow2 e <= inject_Z (Z.pos m) * pow2 e)%Q).
    { apply Qmult_le_compat_r; [exact Hm|]. apply Qlt_le_weak, pow2_pos. }
    change (inject_Z (2 ^ 52)) with (4503599627370496 # 1)%Q in Hmu.
    change (inject_Z (2 ^ 51)) with (2251799813685248 # 1)%Q in Hlt.
    set (u := pow2 e) in *. set (v := pow2 (k - 51)) in *.
    set (P := (inject_Z (Z.pos m) * u)%Q) in *.
    lra.
Qed.

Lemma value_1500 : exists q, SF2Q (Prim2SF 1500) = Some q /\ (q == 1500)%Q.
Proof. eexists. split; [reflexivity|]. vm_compute. reflexivity. Qed.

Lemma value_half : exists q, SF2Q (Prim2SF 0.5) = Some q /\ (q == 1 # 2)%Q.
Proof. eexists. split; [reflexivity|]. vm_compute. reflexivity. Qed.

Lemma value_scale :
  exists q, SF2Q (Prim2SF scale) = Some q /\ (q == scale_value)%Q.
Proof. apply rational_value, rational_scale. Qed.

Lemma Qabs_lt_bounds (x y : Q) : (- y < x)%Q -> (x < y)%Q -> (Qabs x < y)%Q.
Proof. intros H1 H2. apply Qabs_Qlt_condition. split; assumption. Qed.

Lemma Qabs_le_bounds (x y : Q) : (- y <= x)%Q -> (x <= y)%Q -> (Qabs x <= y)%Q.
Proof. intros H1 H2. apply Qabs_Qle_condition. split; assumption. Qed.

Ltac qabs_split H :=
  let H1 := fresh H "lo" in
  let H2 := fresh H "hi" in
  apply Qabs_Qle_condition in H; destruct H as [H1 H2].

(** *** The way to the pulse width *)

(** Where the double value of the forward formula lies in [500, 2501),
    the angle and the offset are finite and the double value is within
    2^-39 of the exact value of the formula. *)
Lemma raw_value_error (a o : float) (q : Q) :
  rational (scale * (a - o) + 1500 + 0.5)%float = Some q ->
  (500 <= q)%Q -> (q < 2501)%Q ->
  exists qa qo,
    SF2Q (Prim2SF a) = Some qa /\ SF2Q (Prim2SF o) = Some qo
    /\ (Qabs (scale_value * (qa - qo) + 1500 + (1 # 2) - q) <= pow2 (-39))%Q.
Proof.
  intros HY Hlo Hhi.
  destruct (rational_value _ _ HY) as (qY & HqY & EY).
  destruct (add_finite _ _ (mk_is_Some _ _ HqY)) as [[qZ HqZ] _].
  destruct (add_finite _ _ (mk_is_Some _ _ HqZ)) as [[qM HqM] _].
  destruct (mul_finite _ _ (mk_is_Some _ _ HqM)) as [_ [qd Hqd]].
  destruct (sub_finite _ _ (mk_is_Some _ _ Hqd)) as [[qa Hqa] [qo Hqo]].
  destruct value_half as (qh & Hqh & Eh).
  destruct value_1500 as (qc & Hqc & Ec).
  destruct value_scale as (qs & Hqs & Es).
  exists qa, qo. split; [exact Hqa|]. split; [exact Hqo|].
  assert (E12 : (pow2 12 == 4096)%Q) by (vm_compute; reflexivity).
  assert (E10 : (pow2 10 == 1024)%Q) by (vm_compute; reflexivity).
  assert (E1 : (pow2 1 == 2)%Q) by (vm_compute; reflexivity).
  assert (E41 : ((3 # 2) * pow2 (12 - 53) == 3 # 4398046511104)%Q)
    by (vm_compute; reflexivity).
  assert (E43 : ((3 # 2) * pow2 (10 - 53) == 3 # 17592186044416)%Q)
    by (vm_compute; reflexivity).
  assert (E52 : ((3 # 2) * pow2 (1 - 53) == 3 # 9007199254740992)%Q)
    by (vm_compute; reflexivity).
  assert (E39 : (pow2 (-39) == 1 # 549755813888)%Q) by (vm_compute; reflexivity).
  (* the last addition *)
  pose proof (add_rounds _ _ _ _ HqZ Hqh) as R1.
  apply (rounds_to_proper _ (qZ + (1 # 2))) in R1; [|rewrite Eh; reflexivity].
  assert (B1 : (Qabs qY < pow2 12)%Q)
    by (rewrite E12; apply Qabs_lt_bounds; lra).
  pose proof (rounds_to_error _ _ _ 12 R1 HqY B1 ltac:(lia)) as D1.
  rewrite E41 in D1. qabs_split D1.
  (* the addition of 1500 *)
  pose proof (add_rounds _ _ _ _ HqM Hqc) as R2.
  apply (rounds_to_proper _ (qM + 1500)) in R2; [|rewrite Ec; reflexivity].
  assert (B2 : (Qabs qZ < pow2 12)%Q)
    by (rewrite E12; apply Qabs_lt_bounds; lra).
  pose proof (rounds_to_error _ _ _ 12 R2 HqZ B2 ltac:(lia)) as D2.
  rewrite E41 in D2. qabs_split D2.
  (* the multiplication *)
  pose proof (mul_rounds _ _ _ _ Hqs Hqd) as R3.
  apply (rounds_to_proper _ (scale_value * qd)) in R3; [|rewrite Es; reflexivity].
  assert (B3 : (Qabs qM < pow2 10)%Q)
    by (rewrite E10; apply Qabs_lt_bounds; lra).
  pose proof (rounds_to_error _ _ _ 10 R3 HqM B3 ltac:(lia)) as D3.
  rewrite E43 in D3. qabs_split D3.
  (* the subtraction *)
  pose proof (sub_rounds _ _ _ _ Hqa Hqo) as R4.
  unfold scale_value in *.
  assert (B4 : (Qabs qd < pow2 1)%Q)
    by (rewrite E1; apply Qabs_lt_bounds; lra).
  pose proof (rounds_to_error _ _ _ 1 R4 Hqd B4 ltac:(lia)) as D4.
  rewrite E52 in D4. qabs_split D4.
  rewrite E39. apply Qabs_le_bounds; lra.
Qed.

Lemma raw_pulse_width_floor (joint : Joint) (angle : float) (q : Q) :
  rational (scale * (angle - offset_angle joint) + 1500 + 0.5)%float = Some q ->
  (0 <= q)%Q -> (q < inject_Z (2 ^ 32))%Q ->
  raw_pulse_width joint angle = Qfloor q.
Proof.
  intros Hq Hlo Hhi. unfold raw_pulse_width, cast_unsigned_int.
  rewrite (truncate_rational _ _ Hq Hlo).
  destruct (Qfloor_bounds q 0 (2 ^ 32) Hlo Hhi) as [H0 H32].
  replace ((- 2 ^ 63 <=? Qfloor q) && (Qfloor q <? 2 ^ 63)) with true
    by (symmetry; apply andb_true_intro; split;
        [apply Z.leb_le | apply Z.ltb_lt]; lia).
  unfold wrap_unsigned. apply Z.mod_small. lia.
Qed.

(** *** The way back *)

(** The quotient [((double)pw - 1500.0) / scale] of the way back, times
    [scale], is within 2^-40 of pw - 1500 at every pulse width of the
    valid range. *)
Lemma pulse_width_quotient_grid :
  forallb
    (fun p =>
       match SF2Q (Prim2SF ((double_of_int p - 1500.0) / scale)) with
       | Some g =>
           Qle_bool (Qabs (scale_value * g - (inject_Z p - 1500))) (pow2 (-40))
       | None => false
       end)
    (map (fun k => 500 + Z.of_nat k) (seq 0 2001)) = true.
Proof. vm_compute. reflexivity. Qed.

Lemma pulse_width_quotient (p : Z) :
  500 <= p <= 2500 ->
  exists g,
    SF2Q (Prim2SF ((double_of_int p - 1500.0) / scale)) = Some g
    /\ (Qabs (scale_value * g - (inject_Z p - 1500)) <= pow2 (-40))%Q.
Proof.
  intros Hp. pose proof pulse_width_quotient_grid as Hall.
  rewrite forallb_forall in Hall. specialize (Hall p).
  destruct (SF2Q (Prim2SF ((double_of_int p - 1500.0) / scale))) as [g|].
  - exists g. split; [reflexivity|]. apply Qle_bool_iff, Hall.
    apply in_map_iff. exists (Z.to_nat (p - 500)). split; [lia|].
    apply in_seq. lia.
  - assert (false = true); [|discriminate]. apply Hall.
    apply in_map_iff. exists (Z.to_nat (p - 500)). split; [lia|].
    apply in_seq. lia.
Qed.

Lemma Qabs_bounds (x : Q) : (- Qabs x <= x)%Q /\ (x <= Qabs x)%Q.
Proof.
  split; [|apply Qle_Qabs].
  pose proof (Qle_Qabs (- x)) as H. rewrite Qabs_opp in H. lra.
Qed.

(** C5, as the code has it. The forward conversion rounds to a whole
    microsecond, so the round trip recovers the angle only up to half a
    pulse-width step. For every joint and every double angle a whose
    forward value scale * (a - offset_angle) + 1500 + 0.5, computed in
    doubles, lies in [500, 2501): the raw pulse width p is in [500, 2500],
    clamping leaves it as it is, a joint that is not inverted is commanded
    p; a is finite, and for every k with |a| + 0.001 <= 2^k the double
    pulse_width_to_angle p offset_angle is finite and differs from a by at
    most round_trip_tolerance k = (1/2 + 2^-38) / scale + 3 * 2^(k - 53);
    for k = 2, angles up to 3.999 rad in size, that is at most
    M_PI / 4000 + 2^-46. *)
Theorem round_trip_within_half_step (joint : Joint) (a : float) (q : Q) :
  rational (scale * (a - offset_angle joint) + 1500 + 0.5)%float = Some q ->
  (500 <= q)%Q -> (q < 2501)%Q ->
  let p := raw_pulse_width joint a in
  500 <= p <= 2500
  /\ clamp_pulse_width p = p
  /\ (forall ty, invert joint = false -> command_pw ty joint a = p)
  /\ (exists qa,
        rational a = Some qa
        /\ forall k,
             -1021 <= k <= 971 -> (Qabs qa + (1 # 1000) <= pow2 k)%Q ->
             exists qa',
               rational (pulse_width_to_angle p (offset_angle joint)) = Some qa'
               /\ (Qabs (qa' - qa) <= round_trip_tolerance k)%Q)
  /\ (exists qpi,
        rational M_PI = Some qpi
        /\ (round_trip_tolerance 2 <= qpi / 4000 + pow2 (-46))%Q).
Proof.
  intros HY Hlo Hhi p.
  assert (Hp : p = Qfloor q).
  { apply raw_pulse_width_floor; [exact HY | lra |].
    eapply Qlt_trans; [exact Hhi|]. unfold Qlt. simpl. lia. }
  assert (Hrange : 500 <= p <= 2500).
  { destruct (Qfloor_bounds q 500 2501 Hlo Hhi). lia. }
  split; [exact Hrange|].
  split; [apply clamp_pulse_width_id; exact Hrange|].
  split.
  { intros ty Hinv. rewrite command_pw_clamp_then_invert, Hinv. fold p.
    rewrite convert_small by lia.
    rewrite to_int_small by (unfold INT_MIN, INT_MAX; lia).
    apply clamp_pulse_width_id; exact Hrange. }
  split.
  - destruct (raw_value_error _ _ _ HY Hlo Hhi) as (qa & qo & Hqa & Hqo & Herr).
    destruct (value_rational _ _ Hqa) as (ra & Hra & Era).
    exists ra. split; [exact Hra|]. intros k Hk Hmag.
    destruct (pulse_width_quotient p Hrange) as (g & Hg & Hgrid).
    pose proof (Qfloor_le q) as Hfl. pose proof (Qlt_floor q) as Hfu.
    rewrite <- Hp, inject_Z_plus in Hfu. rewrite <- Hp in Hfl.
    change (inject_Z 1) with 1%Q in Hfu.
    assert (E39 : (pow2 (-39) == 1 # 549755813888)%Q) by (vm_compute; reflexivity).
    assert (E40 : (pow2 (-40) == 1 # 1099511627776)%Q) by (vm_compute; reflexivity).
    rewrite E39 in Herr. rewrite E40 in Hgrid.
    qabs_split Herr. qabs_split Hgrid.
    rewrite Era in Hmag. destruct (Qabs_bounds qa) as [Halo Hahi].
    unfold scale_value in *.
    pose proof (add_rounds _ _ _ _ Hg Hqo) as R.
    assert (B : (Qabs (g + qo) < pow2 k)%Q) by (apply Qabs_lt_bounds; lra).
    destruct (rounds_to_finite _ _ k R B Hk) as (qa' & Hqa' & D).
    destruct (value_rational _ _ Hqa') as (ra' & Hra' & Era').
    exists ra'. split; [exact Hra'|].
    rewrite Era, Era'. unfold round_trip_tolerance.
    assert (Eu : ((3 # 2) * pow2 (k - 52) == 3 * pow2 (k - 53))%Q).
    { replace (k - 52) with (k - 53 + 1) by lia. rewrite pow2_succ. ring. }
    rewrite Eu in D. qabs_split D.
    set (T := (((1 # 2) + pow2 (-38)) / scale_value)%Q).
    assert (ET : (T * (5599766737522128 # 8796093022208)
                  == (1 # 2) + (1 # 274877906944))%Q)
      by (vm_compute; reflexivity).
    apply Qabs_le_bounds; lra.
  - exists (7074237752028440 # 2251799813685248)%Q.
    split; [vm_compute; reflexivity|].
    unfold Qle. vm_compute. discriminate.
Qed.

Lemma round_trip_within_half_step_witness :
  raw_pulse_width Sample.joint3 0x1.0624dd2f1a9fcp-11%float = 1500
  /\ exists qa qa',
       rational 0x1.0624dd2f1a9fcp-11%float = Some qa
       /\ rational (pulse_width_to_angle 1500 (offset_angle Sample.joint3))
          = Some qa'
       /\ (Qabs (qa' - qa) <= round_trip_tolerance 2)%Q.
Proof.
  assert (HY : rational (scale * (0x1.0624dd2f1a9fcp-11
                                  - offset_angle Sample.joint3) + 1500 + 0.5)%float
               = Some (6600668731595933 # 4398046511104)%Q)
    by (vm_compute; reflexivity).
  assert (Hlo : (500 <= 6600668731595933 # 4398046511104)%Q)
    by (unfold Qle; vm_compute; discriminate).
  assert (Hhi : (6600668731595933 # 4398046511104 < 2501)%Q)
    by (unfold Qlt; vm_compute; reflexivity).
  destruct (round_trip_within_half_step Sample.joint3
              0x1.0624dd2f1a9fcp-11%float
              (6600668731595933 # 4398046511104)%Q HY Hlo Hhi)
    as (_ & _ & _ & (qa & Hqa & Hall) & _).
  split; [vm_compute; reflexivity|].
  assert (Hmag : (Qabs qa + (1 # 1000) <= pow2 2)%Q).
  { vm_compute in Hqa. injection Hqa as <-. unfold Qle. vm_compute. discriminate. }
  destruct (Hall 2 ltac:(lia) Hmag) as (qa' & Hqa' & Herr).
  exists qa, qa'. split; [exact Hqa|]. split; [exact Hqa' | exact Herr].
Defined.

(** Evaluated at the 2001 angles -1, -0.999, ..., 1 of the sample joint,
    the error of the round trip stays below M_PI / 4000 + 2^-40. *)
Lemma round_trip_error_on_sample_angles :
  forallb
    (fun k =>
       let a := (PrimFloat.of_uint63 (Uint63.of_Z (Z.of_nat k)) / 1000 - 1)%float in
       angle_valid Sample.joint3 a
       && (abs (pulse_width_to_angle (raw_pulse_width Sample.joint3 a)
                  (offset_angle Sample.joint3) - a)
           <=? M_PI / 4000 + 0x1p-40)%float)
    (seq 0 2001) = true.
Proof. vm_compute. reflexivity. Qed.

(** C5 as stated fails: for the joint of the specification's examples
    (offset 0, not inverted, range [-1, 1]) and the angle 0.0005, the
    forward map gives 1500 without clamping and the way back gives 0: the
    error, 0.0005 rad, is twelve orders of magnitude above the rounding
    error of a double of that size. *)
Lemma round_trip_loses_small_angle :
  let a := 0x1.0624dd2f1a9fcp-11%float in
  angle_valid Sample.joint3 a = true
  /\ raw_pulse_width Sample.joint3 a = 1500
  /\ clamp_pulse_width 1500 = 1500
  /\ pulse_width_to_angle 1500 (offset_angle Sample.joint3) = 0%float
  /\ (0x1p-12 <? abs (pulse_width_to_angle
                        (raw_pulse_width Sample.joint3 a)
                        (offset_angle Sample.joint3) - a))%float = true.
Proof. repeat split; vm_compute; reflexivity. Qed.

(** ** State translation *)

Lemma state_samples_cons joint rest reading readings :
  state_samples (joint :: rest) (reading :: readings)
  = match joint_sample joint reading with
    | Some sample => sample :: state_samples rest readings
    | None => state_samples rest readings
    end.
Proof. reflexivity. Qed.

Lemma response_loop_spec (pulse_width : list Z) rest i acc :
  (i + length rest <= length pulse_width)%nat ->
  exists js,
    response_loop rest i pulse_width acc = Some js
    /\ js_name js
       = js_name acc ++ (state_samples rest (drop i pulse_width)).*1
    /\ js_position js
       = js_position acc ++ (state_samples rest (drop i pulse_width)).*2.
Proof.
  revert i acc. induction rest as [|joint rest IH]; intros i acc Hlen.
  - exists acc. simpl. rewrite !app_nil_r. auto.
  - simpl in Hlen.
    destruct (lookup_lt_is_Some_2 pulse_width i ltac:(lia)) as [reading Hrd].
    rewrite (drop_S _ _ _ Hrd), state_samples_cons.
    cbn [response_loop]. rewrite Hrd. unfold joint_sample.
    destruct (0 <? reading) eqn:Hpos.
    + destruct (IH (S i) {| js_name := js_name acc ++ [name joint];
                            js_position := js_position acc
                              ++ [pulse_width_to_angle
                                    (if invert joint
                                     then invert_pulse_width reading
                                     else reading) (offset_angle joint)] |})
        as (js & Hjs & Hn & Hp); [lia|].
      exists js. split; [exact Hjs|]. simpl in Hn, Hp.
      rewrite Hn, Hp, <- !app_assoc. split; reflexivity.
    + destruct (IH (S i) acc) as (js & Hjs & Hn & Hp); [lia|].
      exists js. auto.
Qed.

Lemma length_state_samples joint_list pulse_width :
  (length (state_samples joint_list pulse_width) <= length joint_list)%nat.
Proof.
  revert pulse_width.
  induction joint_list as [|joint joints IH]; intros [|reading rest].
  - simpl. lia.
  - simpl. lia.
  - cbn. lia.
  - rewrite state_samples_cons. specialize (IH rest).
    destruct (joint_sample joint reading); simpl; lia.
Qed.

(** C6. For a query result with a reading for every joint, the joint
    state holds, in order, one {name, angle} for each position whose
    reading is positive: the reading with the inversion undone when the
    joint is inverted, turned into the angle
    (pw - 1500) / scale + offset_angle; positions with a reading that is
    not positive are left out, so there are at most as many samples as
    joints. A reading of 500 for a joint with offset 0 and no inversion
    gives the angle -pi/2. *)
Theorem joint_state_samples_positive_readings joint_list pulse_width :
  (length joint_list <= length pulse_width)%nat ->
  (exists js,
     response_received_callback joint_list pulse_width = Some js
     /\ zip (js_name js) (js_position js) = state_samples joint_list pulse_width
     /\ length (js_name js) = length (js_position js)
     /\ (length (js_name js) <= length joint_list)%nat)
  /\ (forall joint reading,
        joint_sample joint reading
        = if 0 <? reading then
            Some (name joint,
                  pulse_width_to_angle
                    (if invert joint then invert_pulse_width reading else reading)
                    (offset_angle joint))
          else None)
  /\ (forall joint,
        offset_angle joint = 0%float -> invert joint = false ->
        response_received_callback [joint] [500]
        = Some {| js_name := [name joint];
                  js_position := [(- (M_PI / 2))%float] |}).
Proof.
  intros Hlen. split; [|split].
  - destruct (response_loop_spec pulse_width joint_list 0
                {| js_name := []; js_position := [] |} Hlen)
      as (js & Hjs & Hn & Hp).
    exists js. split; [exact Hjs|]. simpl in Hn, Hp.
    rewrite Hn, Hp. split; [apply zip_fst_snd|].
    rewrite !length_fmap. split; [reflexivity|]. apply length_state_samples.
  - intros joint reading. reflexivity.
  - intros joint Hoff Hinv.
    unfold response_received_callback. simpl. rewrite Hinv, Hoff. reflexivity.
Qed.

Lemma joint_state_samples_positive_readings_witness :
  exists js,
    response_received_callback
      [Sample.joint3; Sample.joint_offset3; Sample.joint3] [500; 0; 2500]
    = Some js
    /\ zip (js_name js) (js_position js)
       = [("j3", (- (M_PI / 2))%float); ("j3", (M_PI / 2)%float)].
Proof.
  destruct (joint_state_samples_positive_readings
              [Sample.joint3; Sample.joint_offset3; Sample.joint3] [500; 0; 2500]
              ltac:(simpl; lia)) as [(js & Hjs & Hzip & _) _].
  exists js. split; [exact Hjs|].
  rewrite Hzip. vm_compute. reflexivity.
Defined.

(** On the grid of pulse widths the way back and forth is exact: every
    pulse width of the valid range is recovered from its angle. *)
Lemma pulse_width_recovered_from_angle :
  forallb
    (fun p => raw_pulse_width Sample.joint3
                (pulse_width_to_angle p (offset_angle Sample.joint3)) =? p)
    (map (fun k => 500 + Z.of_nat k) (seq 0 2001)) = true.
Proof. vm_compute. reflexivity. Qed.

(** ** The relax service *)

(** C8. For a registry of N joints the relax operation produces exactly N
    discrete-output commands, one per registered joint, each with the
    joint's channel and output 0 (low); the commands are a function of the
    channels alone. *)
Theorem relax_joints_one_per_joint (joints_map_ : gmap string Joint) :
  length (relax_joints joints_map_) = size joints_map_
  /\ relax_joints joints_map_
     = (fun ch => {| out_channel := ch; output := 0 |})
         <$> request_channels joints_map_
  /\ (exists entries,
        NoDup entries.*1
        /\ (forall joint_name joint,
              (joint_name, joint) ∈ entries
              <-> joints_map_ !! joint_name = Some joint)
        /\ relax_joints joints_map_
           = (fun entry => {| out_channel := channel entry.2; output := 0 |})
               <$> entries)
  /\ (forall d, d ∈ relax_joints joints_map_ ->
        output d = 0
        /\ exists joint_name joint,
             joints_map_ !! joint_name = Some joint
             /\ out_channel d = channel joint).
Proof.
  split; [|split; [|split]].
  - unfold relax_joints. rewrite length_fmap. apply length_map_to_list.
  - unfold relax_joints, request_channels, joint_list_of.
    rewrite <- !list_fmap_compose. reflexivity.
  - exists (map_to_list joints_map_). split; [apply NoDup_fst_map_to_list|].
    split; [|reflexivity].
    intros n joint. apply elem_of_map_to_list.
  - intros d Hd. unfold relax_joints in Hd.
    apply list_elem_of_fmap in Hd as ([n joint] & -> & Hin).
    split; [reflexivity|]. exists n, joint.
    split; [apply elem_of_map_to_list; exact Hin | reflexivity].
Qed.

(** * Further properties of the code *)

(** ** Clamping and inversion *)

(** X1. [clamp_pulse_width] is idempotent and monotone, and its fixed
    points are exactly the pulse widths of [500, 2500]. *)
Theorem clamp_pulse_width_idempotent_monotone :
  (forall p, clamp_pulse_width (clamp_pulse_width p) = clamp_pulse_width p)
  /\ (forall p q, p <= q -> clamp_pulse_width p <= clamp_pulse_width q)
  /\ (forall p, clamp_pulse_width p = p <-> 500 <= p <= 2500).
Proof.
  split; [|split].
  - intros p. apply clamp_pulse_width_id, clamp_pulse_width_range.
  - intros p q Hpq. unfold clamp_pulse_width. rewrite !Z.gtb_ltb.
    destruct (Z.ltb_spec p 500), (Z.ltb_spec q 500),
      (Z.ltb_spec 2500 p), (Z.ltb_spec 2500 q); lia.
  - intros p. split.
    + intros <-. apply clamp_pulse_width_range.
    + apply clamp_pulse_width_id.
Qed.

(** X2. The invert flag mirrors the commanded pulse width around 1500:
    two joints with the same offset, one inverted and one not, get pulse
    widths that add up to 3000 for the same angle. *)
Theorem inverted_joint_gets_mirrored_pulse_width ty joint joint' angle :
  offset_angle joint = offset_angle joint' ->
  invert joint = true -> invert joint' = false ->
  command_pw ty joint angle = 3000 - command_pw ty joint' angle
  /\ command_pw ty joint angle - 1500 = - (command_pw ty joint' angle - 1500).
Proof.
  intros Hoff Hinv Hinv'.
  rewrite !command_pw_clamp_then_invert, Hinv, Hinv'.
  unfold raw_pulse_width. rewrite Hoff. unfold invert_pulse_width. lia.
Qed.

Lemma inverted_joint_gets_mirrored_pulse_width_witness :
  command_pw UInt16 Scenario.joint3_inverted 0.5%float
  = 3000 - command_pw UInt16 Sample.joint3 0.5%float
  /\ command_pw UInt16 Scenario.joint3_inverted 0.5%float = 1182.
Proof.
  split; [|vm_compute; reflexivity].
  apply (inverted_joint_gets_mirrored_pulse_width UInt16); reflexivity.
Defined.

(** ** Outcomes of the command callback *)

Lemma offending_not_valid joints_map_ msg i pt j joint_name e :
  offending joints_map_ msg i pt j joint_name e ->
  ~ valid_entry joints_map_ pt j joint_name.
Proof.
  intros [[Hnone _]|(joint & angle & Hreg & Hpos & Hv & _)]
         (joint' & angle' & Hreg' & Hpos' & Hv'); congruence.
Qed.

Lemma lookup_translate_names ty joints_map_ pt rest j k joint_name :
  rest !! k = Some joint_name ->
  translate_names ty joints_map_ pt rest j !! k
  = Some (entry_command ty joints_map_ pt (j + k) joint_name).
Proof.
  revert j k. induction rest as [|n rest IH]; intros j [|k] Hk;
    simpl in *; try discriminate.
  - injection Hk as ->. rewrite Nat.add_0_r. reflexivity.
  - rewrite (IH (S j) k Hk). do 2 f_equal. lia.
Qed.

Lemma lookup_translate_points ty joints_map_ names pts i pt j joint_name :
  pts !! i = Some pt -> names !! j = Some joint_name ->
  translate_points ty joints_map_ names pts !! (i * length names + j)%nat
  = Some (entry_command ty joints_map_ pt j joint_name).
Proof.
  unfold translate_points. revert i.
  induction pts as [|pt0 pts IH]; intros [|i] Hi Hj; simpl in Hi;
    try discriminate; rewrite fmap_cons; cbn [concat].
  - injection Hi as ->. rewrite lookup_app_l.
    + simpl. apply (lookup_translate_names _ _ _ _ 0%nat). exact Hj.
    + rewrite length_translate_names. apply lookup_lt_Some in Hj. simpl. lia.
  - rewrite lookup_app_r; rewrite length_translate_names; [|simpl; lia].
    replace (S i * length names + j - length names)%nat
      with (i * length names + j)%nat by (simpl; lia).
    apply IH; assumption.
Qed.

Lemma translate_points_app ty joints_map_ names pts1 pts2 :
  translate_points ty joints_map_ names (pts1 ++ pts2)
  = translate_points ty joints_map_ names pts1
    ++ translate_points ty joints_map_ names pts2.
Proof.
  unfold translate_points. rewrite fmap_app. apply concat_app.
Qed.

(** X3. A call that returns either publishes exactly one command group
    and logs nothing, or logs exactly one error and publishes nothing; the
    group is published exactly when every entry of every point is valid. *)
Theorem one_group_or_one_error ty joints_map_ msg eff :
  joint_command_callback ty joints_map_ msg = Some eff ->
  (length (published eff) + length (logged eff) = 1)%nat
  /\ (published eff <> []
      <-> forall i pt j joint_name,
            points msg !! i = Some pt ->
            joint_names msg !! j = Some joint_name ->
            valid_entry joints_map_ pt j joint_name)
  /\ (published eff <> [] ->
      published eff
      = [translate_points ty joints_map_ (joint_names msg) (points msg)]).
Proof.
  intros Hcall.
  destruct (joint_command_callback_cases _ _ _ _ Hcall)
    as [(Hpub & Hlog & Hall)
       |(Hpub & i & pt & j & n & e & Hi & Hj & Hoff & _ & Hlog)];
    rewrite Hpub, Hlog.
  - split; [reflexivity|]. split; [|reflexivity].
    split; [intros _; exact Hall | discriminate].
  - split; [reflexivity|]. split; [|congruence].
    split; [congruence|]. intros Hall. exfalso.
    exact (offending_not_valid _ _ _ _ _ _ _ Hoff (Hall i pt j n Hi Hj)).
Qed.

Lemma one_group_or_one_error_witness :
  (length [[Sample.centre_command]] + length (@nil error) = 1)%nat.
Proof.
  exact (proj1 (one_group_or_one_error UInt16 Sample.registry Sample.centre
                  {| published := [[Sample.centre_command]]; logged := [] |}
                  ltac:(vm_compute; reflexivity))).
Defined.

(** X4. In a published group the command of point [i] and joint-name
    index [j] sits at index [i * joint_names.size() + j]; it carries the
    channel of the joint registered under that name, the clamped pulse
    width of the point's position, and the speed [scale * velocity] when
    the point has a positive velocity at [j], speed 0 otherwise. *)
Theorem published_group_layout ty joints_map_ msg eff batch :
  joint_command_callback ty joints_map_ msg = Some eff ->
  published eff = [batch] ->
  length batch = (length (points msg) * length (joint_names msg))%nat
  /\ forall i pt j joint_name,
       points msg !! i = Some pt ->
       joint_names msg !! j = Some joint_name ->
       exists joint angle,
         joints_map_ !! joint_name = Some joint
         /\ positions pt !! j = Some angle
         /\ batch !! (i * length (joint_names msg) + j)%nat
            = Some {| cmd_channel := channel joint;
                      pw := command_pw ty joint angle;
                      speed := match velocities pt !! j with
                               | Some v =>
                                   if (0 <? v)%float then (scale * v)%float
                                   else 0%float
                               | None => 0%float
                               end |}.
Proof.
  intros Hcall Hbatch.
  destruct (joint_command_callback_cases _ _ _ _ Hcall)
    as [(Hpub & _ & Hall)|(Hpub & _)]; [|congruence].
  rewrite Hpub in Hbatch. injection Hbatch as <-.
  split; [apply length_translate_points|].
  intros i pt j n Hi Hj.
  destruct (Hall i pt j n Hi Hj) as (joint & angle & Hreg & Hpos & Hv).
  exists joint, angle. split; [exact Hreg|]. split; [exact Hpos|].
  rewrite (lookup_translate_points _ _ _ _ _ _ _ _ Hi Hj).
  unfold entry_command. rewrite Hreg, Hpos. reflexivity.
Qed.

Lemma published_group_layout_witness :
  joint_command_callback Int32 Scenario.registry Scenario.two_by_two
  = Some {| published := [Scenario.two_by_two_group]; logged := [] |}
  /\ length Scenario.two_by_two_group = 4%nat.
Proof.
  assert (H : joint_command_callback Int32 Scenario.registry Scenario.two_by_two
              = Some {| published := [Scenario.two_by_two_group]; logged := [] |})
    by (vm_compute; reflexivity).
  split; [exact H|].
  exact (proj1 (published_group_layout Int32 Scenario.registry
                  Scenario.two_by_two _ Scenario.two_by_two_group H eq_refl)).
Defined.

(** X5. The unknown-joint error reports [joint_names[i]], with [i] the
    index of the point: whenever such an error is logged it was raised at
    the first point and names the first joint name of the message, whatever
    the position of the unknown name in the list. *)
Theorem unknown_joint_error_names_first_joint ty joints_map_ msg eff reported :
  joint_command_callback ty joints_map_ msg = Some eff ->
  UnknownJointError reported ∈ logged eff ->
  joint_names msg !! 0%nat = Some reported
  /\ exists pt j joint_name,
       points msg !! 0%nat = Some pt
       /\ joint_names msg !! j = Some joint_name
       /\ joints_map_ !! joint_name = None
       /\ valid_before joints_map_ msg 0 j.
Proof.
  intros Hcall Hin.
  destruct (joint_command_callback_cases _ _ _ _ Hcall)
    as [(_ & Hlog & _)
       |(_ & i & pt & j & n & e & Hi & Hj & Hoff & Hbefore & Hlog)];
    rewrite Hlog in Hin; [inversion Hin|].
  apply list_elem_of_singleton in Hin as <-.
  destruct Hoff as [(Hnone & r & Hr & [= ->])|(? & ? & _ & _ & _ & [=])].
  destruct i as [|i].
  - split; [exact Hr|]. exists pt, j, n. auto.
  - exfalso.
    destruct (lookup_lt_is_Some_2 (points msg) 0) as [pt0 Hpt0].
    { apply lookup_lt_Some in Hi. lia. }
    destruct (Hbefore 0%nat pt0 j n ltac:(left; lia) Hpt0 Hj)
      as (joint & _ & Hreg & _).
    congruence.
Qed.

Lemma unknown_joint_error_names_first_joint_witness :
  joint_command_callback UInt16 Sample.registry Scenario.ghost_second
  = Some {| published := []; logged := [UnknownJointError "j3"] |}
  /\ joint_names Scenario.ghost_second !! 0%nat = Some "j3"
  /\ Sample.registry !! "j3" = Some Sample.joint3.
Proof.
  assert (H : joint_command_callback UInt16 Sample.registry Scenario.ghost_second
              = Some {| published := []; logged := [UnknownJointError "j3"] |})
    by (vm_compute; reflexivity).
  split; [exact H|]. split; [|vm_compute; reflexivity].
  exact (proj1 (unknown_joint_error_names_first_joint UInt16 Sample.registry
                  Scenario.ghost_second _ "j3" H
                  ltac:(apply list_elem_of_singleton; reflexivity))).
Defined.

Lemma all_entries_valid_app joints_map_ names pts1 pts2 :
  all_entries_valid joints_map_ names (pts1 ++ pts2)
  <-> all_entries_valid joints_map_ names pts1
      /\ all_entries_valid joints_map_ names pts2.
Proof.
  unfold all_entries_valid. split.
  - intros H. split; intros i pt j n Hi Hj.
    + apply (H i pt j n); [|exact Hj]. apply lookup_app_l_Some. exact Hi.
    + apply (H (length pts1 + i)%nat pt j n); [|exact Hj].
      rewrite lookup_app_r by lia.
      replace (length pts1 + i - length pts1)%nat with i by lia. exact Hi.
  - intros [H1 H2] i pt j n Hi Hj.
    apply lookup_app_Some in Hi as [Hi|[_ Hi]]; eauto.
Qed.

Lemma joint_command_callback_decides ty joints_map_ msg eff :
  joint_command_callback ty joints_map_ msg = Some eff ->
  (all_entries_valid joints_map_ (joint_names msg) (points msg)
   /\ published eff
      = [translate_points ty joints_map_ (joint_names msg) (points msg)]
   /\ logged eff = [])
  \/ (~ all_entries_valid joints_map_ (joint_names msg) (points msg)
      /\ published eff = []
      /\ exists e, logged eff = [e]).
Proof.
  intros Hcall.
  destruct (joint_command_callback_cases _ _ _ _ Hcall)
    as [(Hpub & Hlog & Hall)
       |(Hpub & i & pt & j & n & e & Hi & Hj & Hoff & _ & Hlog)].
  - left. auto.
  - right. split; [|eauto].
    intros Hall. exact (offending_not_valid _ _ _ _ _ _ _ Hoff (Hall i pt j n Hi Hj)).
Qed.

(** X6. Translating the points of two trajectories over the same joint
    names in one message publishes the concatenation of the two groups
    when both are published on their own, and nothing otherwise. *)
Theorem concatenated_trajectories ty joints_map_ names pts1 pts2 eff1 eff2 eff :
  joint_command_callback ty joints_map_
    {| joint_names := names; points := pts1 |} = Some eff1 ->
  joint_command_callback ty joints_map_
    {| joint_names := names; points := pts2 |} = Some eff2 ->
  joint_command_callback ty joints_map_
    {| joint_names := names; points := pts1 ++ pts2 |} = Some eff ->
  published eff
  = match published eff1, published eff2 with
    | [group1], [group2] => [group1 ++ group2]
    | _, _ => []
    end.
Proof.
  intros H1 H2 H.
  apply joint_command_callback_decides in H1, H2, H. simpl in H1, H2, H.
  rewrite all_entries_valid_app, translate_points_app in H.
  destruct H1 as [(V1 & E1 & _)|(V1 & E1 & _)],
           H2 as [(V2 & E2 & _)|(V2 & E2 & _)],
           H as [(V & E & _)|(V & E & _)];
    rewrite E, E1; try rewrite E2; try reflexivity; tauto.
Qed.

Lemma concatenated_trajectories_witness :
  exists eff,
    joint_command_callback UInt16 Sample.registry
      {| joint_names := ["j3"];
         points := [Sample.point 0%float] ++ [Sample.point 2.0%float] |}
    = Some eff
    /\ published eff = [].
Proof.
  exists {| published := [];
            logged := [AngleOutOfRangeError 2.0%float "j3"] |}.
  split; [vm_compute; reflexivity|].
  exact (concatenated_trajectories UInt16 Sample.registry ["j3"]
           [Sample.point 0%float] [Sample.point 2.0%float]
           {| published := [[Sample.centre_command]]; logged := [] |}
           {| published := [];
              logged := [AngleOutOfRangeError 2.0%float "j3"] |}
           _ ltac:(vm_compute; reflexivity) ltac:(vm_compute; reflexivity)
           ltac:(vm_compute; reflexivity)).
Defined.

Lemma point_loop_without_names ty joints_map_ msg rest i st :
  joint_names msg = [] ->
  point_loop ty joints_map_ msg rest i st = Some st.
Proof.
  intros Hnames. revert i. induction rest as [|pt rest IH]; intros i; simpl.
  - reflexivity.
  - rewrite Hnames. simpl. apply IH.
Qed.

(** X7. A trajectory without points, or without joint names, is
    published as an empty command group: no name is looked up and no
    position is read. *)
Theorem empty_trajectory_is_published ty joints_map_ :
  (forall names,
     joint_command_callback ty joints_map_
       {| joint_names := names; points := [] |}
     = Some {| published := [[]]; logged := [] |})
  /\ (forall pts,
        joint_command_callback ty joints_map_
          {| joint_names := []; points := pts |}
        = Some {| published := [[]]; logged := [] |}).
Proof.
  split; [reflexivity|].
  intros pts. unfold joint_command_callback.
  rewrite point_loop_without_names by reflexivity. reflexivity.
Qed.

(** X8. When the first joint name of a message with at least one point
    is not registered, the call is rejected with the unknown-joint error
    for that name before any position is read, so also for a point without
    positions; with an empty registry every such message is rejected. *)
Theorem unknown_first_joint_is_rejected ty joints_map_ joint_name names pt pts :
  joints_map_ !! joint_name = None ->
  joint_command_callback ty joints_map_
    {| joint_names := joint_name :: names; points := pt :: pts |}
  = Some {| published := []; logged := [UnknownJointError joint_name] |}.
Proof.
  intros Hnone. unfold joint_command_callback.
  cbn [points point_loop joint_names joint_loop initial_state invalid].
  unfold joint_step. rewrite Hnone. cbn [joint_names lookup list_lookup].
  rewrite joint_loop_invalid by reflexivity.
  rewrite point_loop_invalid by reflexivity.
  reflexivity.
Qed.

Lemma unknown_first_joint_is_rejected_witness :
  joint_command_callback Int32 ∅
    {| joint_names := ["j3"; "off"];
       points := [ {| positions := []; velocities := [] |} ] |}
  = Some {| published := []; logged := [UnknownJointError "j3"] |}.
Proof.
  apply (unknown_first_joint_is_rejected Int32 ∅ "j3" ["off"]).
  apply lookup_empty.
Defined.

(** X9. A NaN never passes validation: a registered joint commanded to
    NaN is rejected, and a joint whose [min_angle] or [max_angle] is NaN
    rejects every angle. *)
Theorem nan_is_never_valid :
  (forall joint, angle_valid joint nan = false)
  /\ (forall joint angle,
        min_angle joint = nan \/ max_angle joint = nan ->
        angle_valid joint angle = false)
  /\ (forall ty joints_map_ msg i pt j joint_name joint,
        positions_cover_names msg ->
        points msg !! i = Some pt ->
        joint_names msg !! j = Some joint_name ->
        joints_map_ !! joint_name = Some joint ->
        positions pt !! j = Some nan ->
        exists eff e,
          joint_command_callback ty joints_map_ msg = Some eff
          /\ published eff = [] /\ logged eff = [e]).
Proof.
  assert (Hr : forall x, (x <=? nan)%float = false).
  { intros x. rewrite leb_spec. change (Prim2SF nan) with S754_nan.
    destruct (Prim2SF x); reflexivity. }
  assert (Hl : forall x, (nan <=? x)%float = false).
  { intros x. rewrite leb_spec. change (Prim2SF nan) with S754_nan.
    reflexivity. }
  split; [|split].
  - intros joint. unfold angle_valid. rewrite Hr. reflexivity.
  - intros joint angle [H|H]; unfold angle_valid; rewrite H.
    + rewrite Hl. reflexivity.
    + rewrite Hr. apply andb_false_r.
  - intros ty reg msg i pt j n joint Hlen Hi Hj Hreg Hpos.
    destruct (joint_command_callback_total ty reg msg Hlen) as [eff Hcall].
    exists eff.
    destruct (joint_command_callback_decides _ _ _ _ Hcall)
      as [(Hall & _)|(_ & Hpub & e & Hlog)]; [exfalso|eauto].
    destruct (Hall i pt j n Hi Hj) as (joint' & angle & Hreg' & Hpos' & Hv).
    assert (joint' = joint) by congruence. assert (angle = nan) by congruence.
    subst. unfold angle_valid in Hv. rewrite Hr in Hv. discriminate.
Qed.

Lemma nan_is_never_valid_witness :
  exists eff e,
    joint_command_callback UInt16 Sample.registry
      {| joint_names := ["j3"]; points := [Sample.point nan] |} = Some eff
    /\ published eff = [] /\ logged eff = [e].
Proof.
  destruct nan_is_never_valid as (_ & _ & H).
  apply (H UInt16 Sample.registry
           {| joint_names := ["j3"]; points := [Sample.point nan] |}
           0%nat (Sample.point nan) 0%nat "j3" Sample.joint3);
    try reflexivity.
  intros pt Hpt. apply list_elem_of_singleton in Hpt as ->. simpl. lia.
Defined.

(** ** The response handler of the joint-state query *)

Lemma response_loop_short (pulse_width : list Z) rest i acc :
  (i <= length pulse_width < i + length rest)%nat ->
  response_loop rest i pulse_width acc = None.
Proof.
  revert i acc. induction rest as [|joint rest IH]; intros i acc Hlen;
    simpl in *; [lia|].
  destruct (pulse_width !! i) as [reading|] eqn:Hrd; [|reflexivity].
  apply lookup_lt_Some in Hrd.
  destruct (0 <? reading); apply IH; lia.
Qed.

Lemma response_loop_app (pulse_width extra : list Z) rest i acc :
  (i + length rest <= length pulse_width)%nat ->
  response_loop rest i (pulse_width ++ extra) acc
  = response_loop rest i pulse_width acc.
Proof.
  revert i acc. induction rest as [|joint rest IH]; intros i acc Hlen;
    simpl in *; [reflexivity|].
  rewrite lookup_app_l by lia.
  destruct (pulse_width !! i) as [reading|]; [|reflexivity].
  destruct (0 <? reading); apply IH; lia.
Qed.

(** X10. The response handler reads [pulse_width[i]] for every joint of
    the list without a length check: it is free of out-of-bounds reads
    exactly when the result has at least as many readings as there are
    joints, and readings beyond the joint list are ignored. *)
Theorem response_needs_a_reading_per_joint joint_list pulse_width :
  (is_Some (response_received_callback joint_list pulse_width)
   <-> (length joint_list <= length pulse_width)%nat)
  /\ (forall extra,
        (length joint_list <= length pulse_width)%nat ->
        response_received_callback joint_list (pulse_width ++ extra)
        = response_received_callback joint_list pulse_width).
Proof.
  unfold response_received_callback. split.
  - split.
    + intros [js Hjs].
      destruct (Nat.le_gt_cases (length joint_list) (length pulse_width))
        as [H|H]; [exact H|].
      rewrite response_loop_short in Hjs by (simpl; lia). discriminate.
    + intros H.
      destruct (response_loop_spec pulse_width joint_list 0
                  {| js_name := []; js_position := [] |} H) as (js & -> & _).
      eauto.
  - intros extra H. apply response_loop_app. simpl. lia.
Qed.

Lemma response_needs_a_reading_per_joint_witness :
  response_received_callback [Sample.joint3; Sample.joint3] [1500] = None
  /\ response_received_callback [Sample.joint3] ([1500] ++ [700; 0])
     = response_received_callback [Sample.joint3] [1500].
Proof.
  destruct (response_needs_a_reading_per_joint [Sample.joint3] [1500])
    as [_ Happ].
  split; [vm_compute; reflexivity|].
  apply Happ. simpl. lia.
Defined.

(** X11. The published joint state has one sample per positive reading
    among the first [joint_list.size()] readings: readings that are zero
    or negative are dropped without an error, and a result without any
    positive reading gives an empty joint state. *)
Theorem joint_state_counts_positive_readings joint_list pulse_width :
  (length joint_list <= length pulse_width)%nat ->
  exists js,
    response_received_callback joint_list pulse_width = Some js
    /\ length (js_name js)
       = length (filter (fun reading => 0 < reading)
                   (take (length joint_list) pulse_width))
    /\ length (js_position js) = length (js_name js).
Proof.
  intros Hlen.
  destruct (response_loop_spec pulse_width joint_list 0
              {| js_name := []; js_position := [] |} Hlen)
    as (js & Hjs & Hn & Hp).
  exists js. split; [exact Hjs|]. simpl in Hn, Hp.
  rewrite Hn, Hp, !length_fmap. split; [|reflexivity].
  clear. change (drop 0 pulse_width) with pulse_width. revert pulse_width.
  induction joint_list as [|joint joints IH]; intros [|reading readings].
  - reflexivity.
  - reflexivity.
  - reflexivity.
  - rewrite state_samples_cons. cbn [length take]. rewrite filter_cons.
    unfold joint_sample.
    destruct (Z.ltb_spec 0 reading); destruct (decide (0 < reading)); try lia;
      simpl; rewrite IH; reflexivity.
Qed.

Lemma joint_state_counts_positive_readings_witness :
  exists js,
    response_received_callback
      [Sample.joint3; Sample.joint_offset3; Sample.joint3] [0; -5; 0] = Some js
    /\ length (js_name js) = 0%nat.
Proof.
  destruct (joint_state_counts_positive_readings
              [Sample.joint3; Sample.joint_offset3; Sample.joint3] [0; -5; 0]
              ltac:(simpl; lia)) as (js & Hjs & Hn & _).
  exists js. split; [exact Hjs | exact Hn].
Defined.

(** X12. Feeding a commanded pulse width back as the reading of the same
    joint cancels the inversion: the handler accepts it (it is positive)
    and recovers the angle of the clamped pulse width, whether the joint is
    inverted or not. *)
Theorem commanded_pulse_width_reads_back ty joint angle :
  response_received_callback [joint] [command_pw ty joint angle]
  = Some {| js_name := [name joint];
            js_position :=
              [pulse_width_to_angle
                 (clamp_pulse_width
                    (to_int (convert ty (raw_pulse_width joint angle))))
                 (offset_angle joint)] |}.
Proof.
  unfold response_received_callback. cbn [response_loop lookup list_lookup].
  pose proof (command_pw_range ty joint angle) as Hr.
  destruct (Z.ltb_spec 0 (command_pw ty joint angle)) as [_|]; [|lia].
  rewrite command_pw_clamp_then_invert.
  destruct (invert joint); simpl; [|reflexivity].
  unfold invert_pulse_width.
  replace (3000 - (3000 - clamp_pulse_width
                             (to_int (convert ty (raw_pulse_width joint angle)))))
    with (clamp_pulse_width (to_int (convert ty (raw_pulse_width joint angle))))
    by lia.
  reflexivity.
Qed.

(** ** Pulse width -> angle -> pulse width *)

(** X13. The way from a pulse width to its angle and back is the identity
    on the valid range, in the doubles of the code: for every joint whose
    offset_angle is finite and at most 2^40 in size, and every pulse width p
    in [500, 2500], the angle pulse_width_to_angle p offset_angle is
    converted back to the raw pulse width p. *)
Theorem pulse_width_recovered (joint : Joint) (p : Z) (qo : Q) :
  500 <= p <= 2500 ->
  rational (offset_angle joint) = Some qo -> (Qabs qo <= pow2 40)%Q ->
  raw_pulse_width joint (pulse_width_to_angle p (offset_angle joint)) = p.
Proof.
  intros Hp Hro Hmag.
  destruct (rational_value _ _ Hro) as (vo & Hvo & Evo).
  rewrite <- Evo in Hmag. clear Hro Evo qo.
  destruct (pulse_width_quotient p Hp) as (g & Hg & Hgrid).
  destruct value_half as (qh & Hqh & Eh).
  destruct value_1500 as (qc & Hqc & Ec).
  destruct value_scale as (qs & Hqs & Es).
  assert (Hp1 : (500 <= inject_Z p)%Q) by (unfold Qle; simpl; lia).
  assert (Hp2 : (inject_Z p <= 2500)%Q) by (unfold Qle; simpl; lia).
  assert (E40 : (pow2 (-40) == 1 # 1099511627776)%Q) by (vm_compute; reflexivity).
  assert (E40' : (pow2 40 == 1099511627776)%Q) by (vm_compute; reflexivity).
  assert (E41 : (pow2 41 == 2199023255552)%Q) by (vm_compute; reflexivity).
  assert (E12 : (pow2 12 == 4096)%Q) by (vm_compute; reflexivity).
  assert (E10 : (pow2 10 == 1024)%Q) by (vm_compute; reflexivity).
  assert (E1 : (pow2 1 == 2)%Q) by (vm_compute; reflexivity).
  assert (U41 : ((3 # 2) * pow2 (41 - 52) == 3 # 4096)%Q)
    by (vm_compute; reflexivity).
  assert (U1 : ((3 # 2) * pow2 (1 - 52) == 3 # 4503599627370496)%Q)
    by (vm_compute; reflexivity).
  assert (U10 : ((3 # 2) * pow2 (10 - 52) == 3 # 8796093022208)%Q)
    by (vm_compute; reflexivity).
  assert (U12 : ((3 # 2) * pow2 (12 - 52) == 3 # 2199023255552)%Q)
    by (vm_compute; reflexivity).
  rewrite E40 in Hgrid. rewrite E40' in Hmag.
  qabs_split Hgrid. qabs_split Hmag.
  unfold scale_value in *.
  (* the angle *)
  pose proof (add_rounds _ _ _ _ Hg Hvo) as R0.
  assert (B0 : (Qabs (g + vo) < pow2 41)%Q)
    by (rewrite E41; apply Qabs_lt_bounds; lra).
  destruct (rounds_to_finite _ _ 41 R0 B0 ltac:(lia)) as (qa & Hqa & D0).
  rewrite U41 in D0. qabs_split D0.
  (* the subtraction of the offset *)
  pose proof (sub_rounds _ _ _ _ Hqa Hvo) as R1.
  assert (B1 : (Qabs (qa - vo) < pow2 1)%Q)
    by (rewrite E1; apply Qabs_lt_bounds; lra).
  destruct (rounds_to_finite _ _ 1 R1 B1 ltac:(lia)) as (qd & Hqd & D1).
  rewrite U1 in D1. qabs_split D1.
  (* the multiplication *)
  pose proof (mul_rounds _ _ _ _ Hqs Hqd) as R2.
  apply (rounds_to_proper _ ((5599766737522128 # 8796093022208) * qd)) in R2;
    [|rewrite Es; reflexivity].
  assert (B2 : (Qabs ((5599766737522128 # 8796093022208) * qd) < pow2 10)%Q)
    by (rewrite E10; apply Qabs_lt_bounds; lra).
  destruct (rounds_to_finite _ _ 10 R2 B2 ltac:(lia)) as (qM & HqM & D2).
  rewrite U10 in D2. qabs_split D2.
  (* the two additions *)
  pose proof (add_rounds _ _ _ _ HqM Hqc) as R3.
  apply (rounds_to_proper _ (qM + 1500)) in R3; [|rewrite Ec; reflexivity].
  assert (B3 : (Qabs (qM + 1500) < pow2 12)%Q)
    by (rewrite E12; apply Qabs_lt_bounds; lra).
  destruct (rounds_to_finite _ _ 12 R3 B3 ltac:(lia)) as (qZ & HqZ & D3).
  rewrite U12 in D3. qabs_split D3.
  pose proof (add_rounds _ _ _ _ HqZ Hqh) as R4.
  apply (rounds_to_proper _ (qZ + (1 # 2))) in R4; [|rewrite Eh; reflexivity].
  assert (B4 : (Qabs (qZ + (1 # 2)) < pow2 12)%Q)
    by (rewrite E12; apply Qabs_lt_bounds; lra).
  destruct (rounds_to_finite _ _ 12 R4 B4 ltac:(lia)) as (qY & HqY & D4).
  rewrite U12 in D4. qabs_split D4.
  (* the cast *)
  destruct (value_rational _ _ HqY) as (rY & HrY & ErY).
  rewrite <- ErY in *.
  assert (Hfloor : p <= Qfloor rY < p + 1).
  { apply Qfloor_bounds; [lra|]. rewrite inject_Z_plus.
    change (inject_Z 1) with 1%Q. lra. }
  unfold pulse_width_to_angle.
  rewrite (raw_pulse_width_floor joint _ rY HrY).
  - lia.
  - lra.
  - change (inject_Z (2 ^ 32)) with 4294967296%Q. lra.
Qed.

Lemma pulse_width_recovered_witness :
  raw_pulse_width Sample.joint_offset3
    (pulse_width_to_angle 1234 (offset_angle Sample.joint_offset3)) = 1234.
Proof.
  apply (pulse_width_recovered Sample.joint_offset3 1234
           (6755399441055744 # 2251799813685248)%Q).
  - lia.
  - vm_compute. reflexivity.
  - unfold Qle. vm_compute. discriminate.
Defined.

(** The bound on the offset cannot be dropped: with an offset_angle of
    2^43 the pulse width 1503 comes back as 1502. *)
Lemma pulse_width_lost_with_far_offset :
  let joint :=
    {| name := "far"; channel := 5;
       min_angle := (-1.0)%float; max_angle := 1.0%float;
       offset_angle := 0x1p43%float; default_angle := 0%float;
       initialize := false; invert := false |} in
  rational (offset_angle joint) = Some (4503599627370496 # 512)%Q
  /\ raw_pulse_width joint (pulse_width_to_angle 1503 (offset_angle joint))
     = 1502.
Proof. split; vm_compute; reflexivity. Qed.

(** ** Start-up: the registry and the publishers *)

Section StartUp.

Import Startup.

Lemma dot_free_cons c s :
  dot_free (String c s) -> Ascii.eqb c "."%char = false /\ dot_free s.
Proof.
  unfold dot_free. simpl. destruct (Ascii.eqb c "."%char); [discriminate|].
  destruct (find_dot s 0); [discriminate|]. auto.
Qed.

Lemma find_dot_first p r :
  dot_free p -> find_dot (p +:+ String "."%char r) 0 = Some (String.length p).
Proof.
  induction p as [|c p IH]; intros Hp; simpl.
  - reflexivity.
  - apply dot_free_cons in Hp as [-> Hp]. rewrite (IH Hp). reflexivity.
Qed.

Lemma find_dot_skip p s k :
  find_dot (p +:+ s) (String.length p + k)
  = (fun x => (String.length p + x)%nat) <$> find_dot s k.
Proof.
  induction p as [|c p IH].
  - change ("" +:+ s) with s. simpl. destruct (find_dot s k); reflexivity.
  - change (String c p +:+ s) with (String c (p +:+ s)).
    change (String.length (String c p) + k)%nat with (S (String.length p + k)).
    cbn [find_dot]. rewrite IH. destruct (find_dot s k); reflexivity.
Qed.

Lemma find_dot_lt s pos k : find_dot s pos = Some k -> (k < String.length s)%nat.
Proof.
  revert pos k. induction s as [|c s IH]; intros pos k; simpl; [discriminate|].
  destruct pos as [|pos].
  - destruct (Ascii.eqb c "."%char); [intros [= <-]; lia|].
    destruct (find_dot s 0) as [k'|] eqn:E; [|discriminate].
    intros [= <-]. specialize (IH _ _ E). lia.
  - destruct (find_dot s pos) as [k'|] eqn:E; [|discriminate].
    intros [= <-]. specialize (IH _ _ E). lia.
Qed.

Lemma length_append_string (a b : string) :
  String.length (a +:+ b) = (String.length a + String.length b)%nat.
Proof. induction a as [|c a IH]; simpl; [|rewrite IH]; reflexivity. Qed.

Lemma substring_skip p s n k :
  substring (String.length p + n) k (p +:+ s) = substring n k s.
Proof. induction p as [|c p IH]; simpl; [reflexivity | exact IH]. Qed.

Lemma substring_prefix m r :
  substring 0 (String.length m) (m +:+ r) = m.
Proof.
  induction m as [|c m IH]; simpl.
  - destruct r; reflexivity.
  - rewrite IH. reflexivity.
Qed.

Lemma substring_all s : substring 0 (String.length s) s = s.
Proof. induction s as [|c s IH]; simpl; [|rewrite IH]; reflexivity. Qed.

Lemma to_size_t_small z : 0 <= z < 2 ^ 64 -> to_size_t z = z.
Proof. intros H. unfold to_size_t, wrap_unsigned. apply Z.mod_small. exact H. Qed.

Lemma to_size_t_negative z :
  - 2 ^ 64 <= z < 0 -> to_size_t z = 2 ^ 64 + z.
Proof.
  intros H. unfold to_size_t, wrap_unsigned.
  symmetry. apply (Z.mod_unique z (2 ^ 64) (-1)); lia.
Qed.

Lemma to_int_index (k : nat) :
  Z.of_nat k < 2 ^ 31 -> to_int (Z.of_nat k) = Z.of_nat k.
Proof. intros H. apply to_int_small. unfold INT_MIN, INT_MAX. lia. Qed.

Lemma to_int_npos : to_int npos = -1.
Proof. reflexivity. Qed.

(** The extraction with the two [find] results made explicit. *)
Lemma extract_joint_name_found name k :
  Z.of_nat (String.length name) < 2 ^ 31 ->
  find_dot name 0 = Some k ->
  extract_joint_name name
  = match find_dot name (S k) with
    | Some e => Some (substring (S k) (e - S k) name)
    | None => Some (substring (S k) (String.length name - S k) name)
    end.
Proof.
  intros Hlen Hk. pose proof (find_dot_lt _ _ _ Hk) as Hlt.
  unfold extract_joint_name, find. change (Z.to_nat 0) with 0%nat. rewrite Hk.
  rewrite to_int_index by lia.
  rewrite (to_size_t_small (Z.of_nat k + 1)) by lia.
  replace (Z.to_nat (Z.of_nat k + 1)) with (S k) by lia.
  unfold substr.
  destruct (Z.ltb_spec (Z.of_nat (String.length name)) (Z.of_nat k + 1));
    [lia|].
  destruct (find_dot name (S k)) as [e|] eqn:He.
  - pose proof (find_dot_lt _ _ _ He) as Helt.
    assert (Hge : (S k <= e)%nat).
    { clear - He. revert k e He.
      induction name as [|c s IH]; intros k e; simpl; [discriminate|].
      destruct (find_dot s k) as [e'|] eqn:E; [|discriminate].
      intros [= <-]. destruct k as [|k].
      - lia.
      - destruct s as [|c' s']; [discriminate|]. simpl in E.
        destruct (find_dot s' k) as [e''|] eqn:E'; [|discriminate].
        injection E as <-.
        assert (find_dot (String c' s') (S k) = Some (S e''))
          by (simpl; rewrite E'; reflexivity).
        specialize (IH _ _ H). lia. }
    rewrite to_int_index by lia.
    rewrite (to_size_t_small (Z.of_nat e - Z.of_nat k - 1)) by lia.
    f_equal; f_equal; lia.
  - rewrite to_int_npos.
    rewrite (to_size_t_negative (-1 - Z.of_nat k - 1)) by lia.
    f_equal; f_equal; lia.
Qed.

Lemma extract_joint_name_no_dot name :
  Z.of_nat (String.length name) < 2 ^ 31 ->
  dot_free name -> extract_joint_name name = Some name.
Proof.
  intros Hlen Hfree. unfold extract_joint_name, find.
  change (Z.to_nat 0) with 0%nat. rewrite Hfree, to_int_npos.
  change (to_size_t (-1 + 1)) with 0. change (Z.to_nat 0) with 0%nat.
  rewrite Hfree, to_int_npos. change (-1 - -1 - 1) with (-1).
  unfold substr. change (Z.to_nat 0) with 0%nat.
  destruct (Z.ltb_spec (Z.of_nat (String.length name)) 0); [lia|].
  replace (Z.to_nat (Z.min (to_size_t (-1)) (Z.of_nat (String.length name) - 0)))
    with (String.length name)
    by (change (to_size_t (-1)) with (2 ^ 64 - 1); lia).
  rewrite substring_all. reflexivity.
Qed.

Lemma extract_joint_name_two_dots prefix joint_name attribute :
  dot_free prefix -> dot_free joint_name ->
  Z.of_nat (String.length
              (prefix +:+ "." +:+ joint_name +:+ "." +:+ attribute)) < 2 ^ 31 ->
  extract_joint_name (prefix +:+ "." +:+ joint_name +:+ "." +:+ attribute)
  = Some joint_name.
Proof.
  intros Hp Hj.
  change (prefix +:+ "." +:+ joint_name +:+ "." +:+ attribute)
    with (prefix +:+ String "."%char (joint_name +:+ String "."%char attribute)).
  intros Hlen.
  rewrite (extract_joint_name_found _ (String.length prefix) Hlen)
    by (apply find_dot_first; exact Hp).
  replace (S (String.length prefix)) with (String.length prefix + 1)%nat by lia.
  rewrite find_dot_skip. cbn [find_dot].
  rewrite (find_dot_first joint_name attribute Hj). cbn [fmap option_fmap option_map].
  rewrite substring_skip. cbn [substring].
  replace (String.length prefix + S (String.length joint_name)
           - (String.length prefix + 1))%nat
    with (String.length joint_name) by lia.
  rewrite substring_prefix. reflexivity.
Qed.

Lemma extract_joint_name_one_dot prefix joint_name :
  dot_free prefix -> dot_free joint_name ->
  Z.of_nat (String.length (prefix +:+ "." +:+ joint_name)) < 2 ^ 31 ->
  extract_joint_name (prefix +:+ "." +:+ joint_name) = Some joint_name.
Proof.
  intros Hp Hj.
  change (prefix +:+ "." +:+ joint_name)
    with (prefix +:+ String "."%char joint_name).
  intros Hlen.
  rewrite (extract_joint_name_found _ (String.length prefix) Hlen).
  - replace (S (String.length prefix)) with (String.length prefix + 1)%nat by lia.
    rewrite find_dot_skip. cbn [find_dot]. rewrite Hj.
    cbn [fmap option_fmap option_map].
    rewrite substring_skip. cbn [substring].
    rewrite length_append_string. cbn [String.length].
    replace (String.length prefix + S (String.length joint_name)
             - (String.length prefix + 1))%nat
      with (String.length joint_name) by lia.
    rewrite substring_all. reflexivity.
  - rewrite <- (find_dot_first prefix joint_name Hp). reflexivity.
Qed.

(** X14. The joint name of a parameter name is the text between its
    first and its second '.': "joints.<name>.<attribute>" gives <name>.
    Without a second '.' it is everything after the first '.', and without
    any '.' it is the whole parameter name. *)
Theorem extract_joint_name_between_dots (prefix joint_name : string) :
  dot_free prefix -> dot_free joint_name ->
  (forall attribute,
     Z.of_nat (String.length
                 (prefix +:+ "." +:+ joint_name +:+ "." +:+ attribute)) < 2 ^ 31 ->
     extract_joint_name (prefix +:+ "." +:+ joint_name +:+ "." +:+ attribute)
     = Some joint_name)
  /\ (Z.of_nat (String.length (prefix +:+ "." +:+ joint_name)) < 2 ^ 31 ->
      extract_joint_name (prefix +:+ "." +:+ joint_name) = Some joint_name)
  /\ (Z.of_nat (String.length prefix) < 2 ^ 31 ->
      extract_joint_name prefix = Some prefix).
Proof.
  intros Hp Hj. split; [|split].
  - intros attribute. apply extract_joint_name_two_dots; assumption.
  - apply extract_joint_name_one_dot; assumption.
  - intros Hlen. apply extract_joint_name_no_dot; assumption.
Qed.

Lemma extract_joint_name_between_dots_witness :
  extract_joint_name "joints.base.channel" = Some "base"
  /\ extract_joint_name "joints.base" = Some "base"
  /\ extract_joint_name "joints" = Some "joints".
Proof.
  destruct (extract_joint_name_between_dots "joints" "base" eq_refl eq_refl)
    as (H1 & H2 & H3).
  split; [|split].
  - apply (H1 "channel"). vm_compute. reflexivity.
  - apply H2. vm_compute. reflexivity.
  - apply H3. vm_compute. reflexivity.
Defined.

Lemma extract_joint_name_total name :
  Z.of_nat (String.length name) < 2 ^ 31 ->
  is_Some (extract_joint_name name).
Proof.
  intros Hlen. destruct (find_dot name 0) as [k|] eqn:Hk.
  - rewrite (extract_joint_name_found _ _ Hlen Hk).
    destruct (find_dot name (S k)); eauto.
  - rewrite (extract_joint_name_no_dot _ Hlen Hk). eauto.
Qed.

Lemma lookup_fill_joints_map params (l : list string) (m : gmap string Joint) k :
  foldr (fun name m => <[name := read_joint params name]> m) m l !! k
  = if decide (k ∈ l) then Some (read_joint params k) else m !! k.
Proof.
  induction l as [|n l IH]; simpl.
  - reflexivity.
  - destruct (decide (n = k)) as [->|Hne].
    + rewrite lookup_insert_eq.
      destruct (decide (k ∈ k :: l)) as [_|Hn]; [reflexivity|].
      exfalso. apply Hn. left.
    + rewrite lookup_insert_ne by exact Hne. rewrite IH.
      destruct (decide (k ∈ l)), (decide (k ∈ n :: l)) as [Hin|Hn];
        try reflexivity.
      * exfalso. apply Hn. right. assumption.
      * apply elem_of_cons in Hin as [->|?]; congruence.
Qed.

(** The registry after start-up, key by key. *)
Lemma process_parameters_lookup params names st k joint :
  process_parameters params names = Some st ->
  joints_map_ st !! k = Some joint
  <-> joint = read_joint params k
      /\ exists n, n ∈ names /\ extract_joint_name n = Some k.
Proof.
  unfold process_parameters, joint_names_set.
  destruct (mapM extract_joint_name names) as [ks|] eqn:Hks; [|discriminate].
  simpl. intros [= <-]. simpl. unfold fill_joints_map.
  rewrite lookup_fill_joints_map, lookup_empty.
  apply mapM_Some_1 in Hks.
  assert (Hiff : k ∈ elements (list_to_set ks : gset string)
                 <-> exists n, n ∈ names /\ extract_joint_name n = Some k).
  { rewrite elem_of_elements, elem_of_list_to_set. split.
    - intros Hin. apply list_elem_of_lookup in Hin as [i Hi].
      destruct (Forall2_lookup_r _ _ _ _ _ Hks Hi) as (n & Hn & Hext).
      exists n. split; [|exact Hext]. apply list_elem_of_lookup. eauto.
    - intros (n & Hn & Hext). apply list_elem_of_lookup in Hn as [i Hi].
      destruct (Forall2_lookup_l _ _ _ _ _ Hks Hi) as (k' & Hk' & Hext').
      assert (k' = k) by congruence. subst.
      apply list_elem_of_lookup. eauto. }
  destruct (decide (k ∈ elements (list_to_set ks : gset string))) as [Hin|Hin].
  - split; [intros [= <-]; tauto | intros [-> _]; reflexivity].
  - split; [discriminate | tauto].
Qed.

Lemma process_parameters_total params names :
  (forall n, n ∈ names -> Z.of_nat (String.length n) < 2 ^ 31) ->
  is_Some (process_parameters params names).
Proof.
  intros Hlen. unfold process_parameters, joint_names_set.
  destruct (mapM_is_Some_2 extract_joint_name names) as [ks ->]; [|simpl; eauto].
  apply Forall_forall. intros n Hn. apply extract_joint_name_total, Hlen, Hn.
Qed.

(** X15. [process_parameters] fills the registry with one joint per
    distinct joint name extracted from the parameter names: the keys are
    exactly the extracted names, the [name] field of every joint is its
    key, and its other fields are read from the parameters
    "joints.<key>.<attribute>". The warning is logged exactly when there
    is no parameter name, and then the registry is empty. *)
Theorem process_parameters_registry params names :
  (forall n, n ∈ names -> Z.of_nat (String.length n) < 2 ^ 31) ->
  exists st,
    process_parameters params names = Some st
    /\ (forall k joint,
          joints_map_ st !! k = Some joint
          <-> joint = read_joint params k
              /\ exists n, n ∈ names /\ extract_joint_name n = Some k)
    /\ (forall k joint, joints_map_ st !! k = Some joint -> name joint = k)
    /\ (warnings st = [NoJointsWarning] <-> names = [])
    /\ (names = [] -> joints_map_ st = ∅).
Proof.
  intros Hlen.
  destruct (process_parameters_total params names Hlen) as [st Hst].
  exists st. split; [exact Hst|].
  split; [|split; [|split]].
  - intros k joint. apply process_parameters_lookup. exact Hst.
  - intros k joint Hk.
    apply (process_parameters_lookup _ _ _ _ _ Hst) in Hk as [-> _]. reflexivity.
  - unfold process_parameters in Hst.
    destruct (joint_names_set names); [|discriminate].
    injection Hst as <-. simpl.
    destruct names; simpl; split; congruence.
  - intros ->. apply map_eq. intros k. rewrite lookup_empty.
    destruct (joints_map_ st !! k) as [joint|] eqn:Hk; [|reflexivity].
    apply (process_parameters_lookup _ _ _ _ _ Hst) in Hk as [_ (n & Hn & _)].
    inversion Hn.
Qed.

Lemma process_parameters_registry_witness :
  exists st,
    process_parameters Scenario.parameters Scenario.parameter_names = Some st
    /\ (name <$> joints_map_ st !! "elbow") = Some "elbow"
    /\ joints_map_ st !! "joints" = None.
Proof.
  destruct (process_parameters_registry Scenario.parameters
              Scenario.parameter_names) as (st & Hst & Hkeys & Hname & _).
  - intros n Hn. unfold Scenario.parameter_names in Hn.
    repeat (apply elem_of_cons in Hn as [->|Hn]; [vm_compute; reflexivity|]).
    inversion Hn.
  - exists st. split; [exact Hst|].
    assert (E : Some st
                = process_parameters Scenario.parameters Scenario.parameter_names)
      by (symmetry; exact Hst).
    vm_compute in E. injection E as ->. split; vm_compute; reflexivity.
Defined.

(** X16. For parameter names of the form "joints.<name>.<attribute>"
    with names free of '.', the registry has exactly one joint per name
    that occurs, however many attributes of it are listed. *)
Theorem registry_of_joint_parameters params names :
  (forall n, n ∈ names ->
     Z.of_nat (String.length n) < 2 ^ 31
     /\ exists joint_name attribute,
          dot_free joint_name
          /\ n = "joints" +:+ "." +:+ joint_name +:+ "." +:+ attribute) ->
  exists st,
    process_parameters params names = Some st
    /\ forall k,
         is_Some (joints_map_ st !! k)
         <-> dot_free k
             /\ exists attribute,
                  ("joints" +:+ "." +:+ k +:+ "." +:+ attribute) ∈ names.
Proof.
  intros Hwf.
  destruct (process_parameters_total params names) as [st Hst].
  { intros n Hn. apply (Hwf n Hn). }
  exists st. split; [exact Hst|]. intros k. split.
  - intros [joint Hk].
    apply (process_parameters_lookup _ _ _ _ _ Hst) in Hk as [_ (n & Hn & Hext)].
    destruct (Hwf n Hn) as (Hlen & jn & attr & Hfree & ->).
    rewrite (extract_joint_name_two_dots "joints" jn attr eq_refl Hfree Hlen)
      in Hext.
    injection Hext as <-.
    split; [exact Hfree|]. exists attr. exact Hn.
  - intros (Hfree & attr & Hin).
    exists (read_joint params k).
    apply (process_parameters_lookup _ _ _ _ _ Hst). split; [reflexivity|].
    exists ("joints" +:+ "." +:+ k +:+ "." +:+ attr). split; [exact Hin|].
    apply (extract_joint_name_two_dots "joints" k attr eq_refl Hfree).
    apply (Hwf _ Hin).
Qed.

Lemma registry_of_joint_parameters_witness :
  exists st,
    process_parameters Scenario.parameters Scenario.parameter_names = Some st
    /\ is_Some (joints_map_ st !! "base").
Proof.
  destruct (registry_of_joint_parameters Scenario.parameters
              Scenario.parameter_names) as (st & Hst & Hkeys).
  - intros n Hn. unfold Scenario.parameter_names in Hn.
    repeat (apply elem_of_cons in Hn as [->|Hn];
            [split; [vm_compute; reflexivity|] |]).
    + exists "base", "channel". split; reflexivity.
    + exists "base", "invert". split; reflexivity.
    + exists "elbow", "channel". split; reflexivity.
    + exists "elbow", "max_angle". split; reflexivity.
    + inversion Hn.
  - exists st. split; [exact Hst|]. apply Hkeys. split; [reflexivity|].
    exists "channel". left.
Defined.

(** X17. With the registry that [process_parameters] builds, the
    out-of-range error reports the joint name that was looked up: the
    reported name is the joint name at the offending index of the message,
    and the reported angle is the position commanded there. *)
Theorem out_of_range_error_names_the_joint
    params names st ty msg eff angle reported :
  process_parameters params names = Some st ->
  joint_command_callback ty (joints_map_ st) msg = Some eff ->
  AngleOutOfRangeError angle reported ∈ logged eff ->
  exists i pt j,
    points msg !! i = Some pt
    /\ joint_names msg !! j = Some reported
    /\ positions pt !! j = Some angle
    /\ joints_map_ st !! reported = Some (read_joint params reported)
    /\ angle_valid (read_joint params reported) angle = false
    /\ valid_before (joints_map_ st) msg i j.
Proof.
  intros Hst Hcall Hin.
  destruct (joint_command_callback_cases _ _ _ _ Hcall)
    as [(_ & Hlog & _)
       |(_ & i & pt & j & n & e & Hi & Hj & Hoff & Hbefore & Hlog)];
    rewrite Hlog in Hin; [inversion Hin|].
  apply list_elem_of_singleton in Hin as <-.
  destruct Hoff as [(_ & r & _ & [=])
                   |(joint & a & Hreg & Hpos & Hv & [= -> ->])].
  pose proof Hreg as Hjoint.
  apply (process_parameters_lookup _ _ _ _ _ Hst) in Hjoint as [-> _].
  simpl. exists i, pt, j. auto 10.
Qed.

Lemma out_of_range_error_names_the_joint_witness :
  exists st eff,
    process_parameters Scenario.parameters Scenario.parameter_names = Some st
    /\ joint_command_callback Int32 (joints_map_ st)
         {| joint_names := ["base"]; points := [Sample.point 1.0%float] |}
       = Some eff
    /\ logged eff = [AngleOutOfRangeError 1.0%float "base"].
Proof.
  destruct (process_parameters_total Scenario.parameters
              Scenario.parameter_names) as [st Hst].
  { intros n Hn. unfold Scenario.parameter_names in Hn.
    repeat (apply elem_of_cons in Hn as [->|Hn]; [vm_compute; reflexivity|]).
    inversion Hn. }
  assert (E : Some st
              = process_parameters Scenario.parameters Scenario.parameter_names)
    by (symmetry; exact Hst).
  vm_compute in E. injection E as Est.
  exists st, {| published := [];
                logged := [AngleOutOfRangeError 1.0%float "base"] |}.
  split; [exact Hst|].
  assert (Hcall : joint_command_callback Int32 (joints_map_ st)
                    {| joint_names := ["base"];
                       points := [Sample.point 1.0%float] |}
                  = Some {| published := [];
                            logged := [AngleOutOfRangeError 1.0%float "base"] |})
    by (rewrite Est; vm_compute; reflexivity).
  split; [exact Hcall|].
  destruct (out_of_range_error_names_the_joint Scenario.parameters
              Scenario.parameter_names st Int32 _ _ 1.0%float "base" Hst Hcall)
    as (i & pt & j & _); [left|reflexivity].
Defined.

(** X18. [setup_publishers] always creates the two command publishers.
    The joint-state timer exists exactly when joint states are to be
    published and the rate is positive, and then the joint-state publisher
    exists as well; its period is 1000 / rate in whole milliseconds, which
    is 0 for a rate above 1000 Hz. The division is never evaluated for a
    rate of 0. *)
Theorem joint_state_timer_period st :
  "discrete_output" ∈ topics (setup_publishers st)
  /\ "servo_cmd" ∈ topics (setup_publishers st)
  /\ ("joint_states" ∈ topics (setup_publishers st)
      <-> publish_joint_states_ st = true)
  /\ (is_Some (joint_states_timer_ (setup_publishers st))
      <-> publish_joint_states_ st = true /\ 0 < publish_rate_ st)
  /\ (forall period,
        joint_states_timer_ (setup_publishers st) = Some period ->
        "joint_states" ∈ topics (setup_publishers st)
        /\ 0 <= period <= 1000
        /\ period * publish_rate_ st <= 1000 < (period + 1) * publish_rate_ st
        /\ (period = 0 <-> 1000 < publish_rate_ st)).
Proof.
  unfold setup_publishers. simpl.
  split; [left|]. split; [right; left|].
  destruct (publish_joint_states_ st); simpl.
  - split.
    { split; [reflexivity|]. intros _. do 2 right. left. }
    destruct (Z.ltb_spec 0 (publish_rate_ st)) as [Hpos|Hnonpos].
    + split; [split; eauto|].
      intros period [= <-]. split; [do 2 right; left|].
      rewrite Z.quot_div_nonneg by lia.
      pose proof (Z.div_mod 1000 (publish_rate_ st) ltac:(lia)) as Hdm.
      pose proof (Z.mod_pos_bound 1000 (publish_rate_ st) Hpos) as Hmod.
      assert (0 <= 1000 / publish_rate_ st) by (apply Z.div_pos; lia).
      repeat split; nia.
    + split; [|discriminate].
      split; [intros [? [=]] | intros [_ ?]; lia].
  - split.
    { split; [|discriminate]. intros Hin.
      repeat (apply elem_of_cons in Hin as [Hin|Hin]; [discriminate|]).
      inversion Hin. }
    split; [|discriminate].
    split; [intros [? [=]] | intros [[=] _]].
Qed.

Lemma joint_state_timer_period_witness :
  joint_states_timer_
    (setup_publishers
       {| joints_map_ := ∅; publish_joint_states_ := true;
          publish_rate_ := 3; warnings := [] |}) = Some 333
  /\ 333 * 3 <= 1000 < (333 + 1) * 3.
Proof.
  split; [reflexivity|].
  destruct (joint_state_timer_period
              {| joints_map_ := ∅; publish_joint_states_ := true;
                 publish_rate_ := 3; warnings := [] |})
    as (_ & _ & _ & _ & H).
  destruct (H 333 eq_refl) as (_ & _ & Hbounds & _). exact Hbounds.
Defined.

End StartUp.
